(** * The background relay of the Browser AI Agent extension

    A shallow embedding of [src/extension/js/background.js]: the
    WebSocket connection with its reconnect counter, the registry of
    popup ports, the router of backend frames, and the two-step task
    submission.  The script is event driven: every listener is embedded
    as a computation in a small state-and-exception monad over a [World]
    holding the script's variables, the browser state it reads, and the
    list of calls it makes on the browser's interfaces. *)

From Stdlib Require Import List String Ascii Arith Bool Lia ZArith DecimalString.
Import ListNotations.
Open Scope string_scope.
Open Scope list_scope.

#[local] Set Warnings "-register-all".
#[local] Set Warnings "-notation-overridden".
#[local] Set Warnings "-notation-incompatible-prefix".

(** ** JavaScript values *)

(** Values that travel through the script: parsed JSON frames, messages
    from a popup, response bodies.  Numbers are kept to the integers. *)
Inductive JSValue : Type :=
| JUndefined
| JNull
| JBool (b : bool)
| JNum (z : Z)
| JStr (s : string)
| JArr (items : list JSValue)
| JObj (fields : list (string * JSValue)).

(** Own-property lookup of an object literal. *)
Fixpoint lookup (key : string) (fields : list (string * JSValue)) : JSValue :=
  match fields with
  | [] => JUndefined
  | (k, v) :: rest => if String.eqb k key then v else lookup key rest
  end.

(** [v === 'literal'] *)
Definition strict_eq_str (v : JSValue) (literal : string) : bool :=
  match v with
  | JStr s => String.eqb s literal
  | _ => false
  end.

Fixpoint join (sep : string) (parts : list string) : string :=
  match parts with
  | [] => ""
  | [s] => s
  | s :: rest => s ++ sep ++ join sep rest
  end.

(** ToString, as a template literal or [+] with a string applies it. *)
Fixpoint ToString (v : JSValue) : string :=
  match v with
  | JUndefined => "undefined"
  | JNull => "null"
  | JBool true => "true"
  | JBool false => "false"
  | JNum z => NilZero.string_of_int (Z.to_int z)
  | JStr s => s
  | JArr items =>
      join "," (map (fun x => match x with
                              | JUndefined | JNull => ""
                              | _ => ToString x
                              end) items)
  | JObj _ => "[object Object]"
  end.

(** An [Error] object; the script reads nothing but its [message]. *)
Record JSError : Type := Error { error_message : string }.

Definition error_value (e : JSError) : JSValue :=
  JObj [("message", JStr (error_message e))].

(** ** Ports, sockets, timers *)

(** A [chrome.runtime.Port]: the object, and the name it was opened
    under.  Two ports are the same object when they agree on both. *)
Record Port : Type := { port_id : nat; port_name : string }.

Definition Port_eqb (p q : Port) : bool :=
  Nat.eqb (port_id p) (port_id q) && String.eqb (port_name p) (port_name q).

Inductive ReadyState : Type := CONNECTING | OPEN | CLOSING | CLOSED.

(** The functions the script hands to [setTimeout] and [setInterval]. *)
Inductive Callback : Type :=
| CbConnectWebSocket   (* setTimeout(connectWebSocket, ...), line 31 *)
| CbClearBadge         (* () => chrome.action.setBadgeText({ text: '' }), line 78 *)
| CbPing.              (* the keep-alive of lines 179-183 *)

Definition Callback_eqb (a b : Callback) : bool :=
  match a, b with
  | CbConnectWebSocket, CbConnectWebSocket => true
  | CbClearBadge, CbClearBadge => true
  | CbPing, CbPing => true
  | _, _ => false
  end.

Record Timer : Type :=
  { due : Z;                   (* the clock value at which it fires *)
    callback : Callback;
    period : option Z }.       (* [Some d] for setInterval *)

(** The suspension points of [executeTask] (each [await]). *)
Inductive Awaiting : Type :=
| AwaitCreate                        (* line 141: fetch POST /api/tasks *)
| AwaitJson                          (* line 153: response.json() *)
| AwaitExecute (taskData : JSValue). (* line 156: fetch POST /api/execute/... *)

(** How the awaited promise settles. *)
Inductive Settled : Type :=
| Rejected (e : JSError)
| Response (ok : bool)
| Json (v : JSValue).

(** Calls on the browser's interfaces, in the order they are made. *)
Inductive Effect : Type :=
| ConsoleLog (text : string)
| ConsoleError (text : string) (detail : JSValue)
| PostMessage (port : Port) (message : JSValue) (delivered : bool)
| WebSocketNew (socket : nat) (url : string)
| WebSocketClose (socket : nat)
| WebSocketSend (socket : nat) (data : JSValue) (* JSON.stringify(data) *)
| SetBadgeText (text : string)
| SetBadgeBackgroundColor (color : string)
| StorageLocalSet (key : string) (value : JSValue)
| NotificationsCreate (options : list (string * JSValue))
| SetTimeout (cb : Callback) (delay : Z)
| SetInterval (cb : Callback) (delay : Z)
| Fetch (url : string) (method : string) (body : option JSValue).
    (* body: the value handed to JSON.stringify *)

(** ** The Set of ports

    [const ports = new Set()].  A JavaScript Set keeps its entries in
    insertion order in a list; [delete] leaves an empty slot behind and
    [forEach] walks the live list by index, so a callback may delete
    entries while the walk is under way. *)
Definition JSSet : Type := list (option Port).

Definition is_entry (p : Port) (e : option Port) : bool :=
  match e with
  | Some q => Port_eqb q p
  | None => false
  end.

Definition Set_has (p : Port) (s : JSSet) : bool := existsb (is_entry p) s.

Definition Set_add (p : Port) (s : JSSet) : JSSet :=
  if Set_has p s then s else s ++ [Some p].

Fixpoint Set_delete (p : Port) (s : JSSet) : JSSet :=
  match s with
  | [] => []
  | e :: rest => if is_entry p e then None :: rest else e :: Set_delete p rest
  end.

(** ** The world *)

Record World : Type :=
  { (* the script's variables *)
    ws : option nat;                 (* let ws = null *)
    reconnectAttempts : nat;         (* let reconnectAttempts = 0 *)
    ports : JSSet;                   (* const ports = new Set() *)
    (* browser state the script reads or arms *)
    sockets : list ReadyState;       (* readyState of every WebSocket created *)
    listeners : list Port;           (* ports carrying onDisconnect/onMessage listeners *)
    broken : list Port;              (* ports whose channel is closed: postMessage throws *)
    timers : list Timer;
    now : Z;                         (* clock, in milliseconds *)
    badgeText : string;
    badgeColor : string;
    tasks : list (nat * Awaiting);   (* suspended activations of executeTask *)
    next_task : nat;
    (* every call made, with the clock value at the call *)
    out : list (Z * Effect) }.

Definition set_ws (v : option nat) (w : World) : World :=
  {| ws := v; reconnectAttempts := reconnectAttempts w; ports := ports w;
     sockets := sockets w; listeners := listeners w; broken := broken w;
     timers := timers w; now := now w; badgeText := badgeText w;
     badgeColor := badgeColor w; tasks := tasks w;
     next_task := next_task w; out := out w |}.

Definition set_reconnectAttempts (v : nat) (w : World) : World :=
  {| ws := ws w; reconnectAttempts := v; ports := ports w;
     sockets := sockets w; listeners := listeners w; broken := broken w;
     timers := timers w; now := now w; badgeText := badgeText w;
     badgeColor := badgeColor w; tasks := tasks w;
     next_task := next_task w; out := out w |}.

Definition set_ports (v : JSSet) (w : World) : World :=
  {| ws := ws w; reconnectAttempts := reconnectAttempts w; ports := v;
     sockets := sockets w; listeners := listeners w; broken := broken w;
     timers := timers w; now := now w; badgeText := badgeText w;
     badgeColor := badgeColor w; tasks := tasks w;
     next_task := next_task w; out := out w |}.

Definition set_sockets (v : list ReadyState) (w : World) : World :=
  {| ws := ws w; reconnectAttempts := reconnectAttempts w; ports := ports w;
     sockets := v; listeners := listeners w; broken := broken w;
     timers := timers w; now := now w; badgeText := badgeText w;
     badgeColor := badgeColor w; tasks := tasks w;
     next_task := next_task w; out := out w |}.

Definition set_listeners (v : list Port) (w : World) : World :=
  {| ws := ws w; reconnectAttempts := reconnectAttempts w; ports := ports w;
     sockets := sockets w; listeners := v; broken := broken w;
     timers := timers w; now := now w; badgeText := badgeText w;
     badgeColor := badgeColor w; tasks := tasks w;
     next_task := next_task w; out := out w |}.

Definition set_broken (v : list Port) (w : World) : World :=
  {| ws := ws w; reconnectAttempts := reconnectAttempts w; ports := ports w;
     sockets := sockets w; listeners := listeners w; broken := v;
     timers := timers w; now := now w; badgeText := badgeText w;
     badgeColor := badgeColor w; tasks := tasks w;
     next_task := next_task w; out := out w |}.

Definition set_timers (v : list Timer) (w : World) : World :=
  {| ws := ws w; reconnectAttempts := reconnectAttempts w; ports := ports w;
     sockets := sockets w; listeners := listeners w; broken := broken w;
     timers := v; now := now w; badgeText := badgeText w;
     badgeColor := badgeColor w; tasks := tasks w;
     next_task := next_task w; out := out w |}.

Definition set_now (v : Z) (w : World) : World :=
  {| ws := ws w; reconnectAttempts := reconnectAttempts w; ports := ports w;
     sockets := sockets w; listeners := listeners w; broken := broken w;
     timers := timers w; now := v; badgeText := badgeText w;
     badgeColor := badgeColor w; tasks := tasks w;
     next_task := next_task w; out := out w |}.

Definition set_badgeText (v : string) (w : World) : World :=
  {| ws := ws w; reconnectAttempts := reconnectAttempts w; ports := ports w;
     sockets := sockets w; listeners := listeners w; broken := broken w;
     timers := timers w; now := now w; badgeText := v;
     badgeColor := badgeColor w; tasks := tasks w;
     next_task := next_task w; out := out w |}.

Definition set_badgeColor (v : string) (w : World) : World :=
  {| ws := ws w; reconnectAttempts := reconnectAttempts w; ports := ports w;
     sockets := sockets w; listeners := listeners w; broken := broken w;
     timers := timers w; now := now w; badgeText := badgeText w;
     badgeColor := v; tasks := tasks w;
     next_task := next_task w; out := out w |}.

Definition set_tasks (v : list (nat * Awaiting)) (w : World) : World :=
  {| ws := ws w; reconnectAttempts := reconnectAttempts w; ports := ports w;
     sockets := sockets w; listeners := listeners w; broken := broken w;
     timers := timers w; now := now w; badgeText := badgeText w;
     badgeColor := badgeColor w; tasks := v;
     next_task := next_task w; out := out w |}.

Definition set_next_task (v : nat) (w : World) : World :=
  {| ws := ws w; reconnectAttempts := reconnectAttempts w; ports := ports w;
     sockets := sockets w; listeners := listeners w; broken := broken w;
     timers := timers w; now := now w; badgeText := badgeText w;
     badgeColor := badgeColor w; tasks := tasks w;
     next_task := v; out := out w |}.

Definition set_out (v : list (Z * Effect)) (w : World) : World :=
  {| ws := ws w; reconnectAttempts := reconnectAttempts w; ports := ports w;
     sockets := sockets w; listeners := listeners w; broken := broken w;
     timers := timers w; now := now w; badgeText := badgeText w;
     badgeColor := badgeColor w; tasks := tasks w;
     next_task := next_task w; out := v |}.

(** ** The monad of listeners

    A listener changes the world and either returns, or throws (the
    world keeps what was done before the throw), or is cut off by the
    bound put on a loop. *)
Inductive Result (A : Type) : Type :=
| Normal (a : A)
| Thrown (e : JSError)
| OutOfFuel.

Arguments Normal {A} a.
Arguments Thrown {A} e.
Arguments OutOfFuel {A}.

Definition M (A : Type) : Type := World -> Result A * World.

Definition ret {A} (a : A) : M A := fun w => (Normal a, w).

Definition bind {A B} (m : M A) (f : A -> M B) : M B :=
  fun w =>
    match m w with
    | (Normal a, w') => f a w'
    | (Thrown e, w') => (Thrown e, w')
    | (OutOfFuel, w') => (OutOfFuel, w')
    end.

Definition throw {A} (e : JSError) : M A := fun w => (Thrown e, w).

(** [try { body } catch (error) { handler }] *)
Definition try_catch {A} (body : M A) (handler : JSError -> M A) : M A :=
  fun w =>
    match body w with
    | (Thrown e, w') => handler e w'
    | r => r
    end.

Definition gets {A} (f : World -> A) : M A := fun w => (Normal (f w), w).

Definition modify (f : World -> World) : M unit := fun w => (Normal tt, f w).

Definition exec {A} (m : M A) (w : World) : World := snd (m w).

Declare Scope js_scope.
Delimit Scope js_scope with js.
Notation "x <- m ;; k" := (bind m (fun x => k))
  (at level 61, m at next level, right associativity) : js_scope.
Notation "m ;; k" := (bind m (fun _ => k))
  (at level 61, right associativity) : js_scope.
Open Scope js_scope.

(** A call on a browser interface, entered in [out] with the clock. *)
Definition emit (e : Effect) : M unit :=
  modify (fun w => set_out (out w ++ [(now w, e)]) w).

Definition console_log (text : string) : M unit := emit (ConsoleLog text).

Definition console_error (text : string) (detail : JSValue) : M unit :=
  emit (ConsoleError text detail).

(** [v.key]: a TypeError on [null] and [undefined], [undefined] on the
    other primitives and on arrays (none of the keys the script reads is
    inherited), the own property on an object. *)
Definition get_member (v : JSValue) (key : string) : M JSValue :=
  match v with
  | JUndefined =>
      throw (Error ("Cannot read properties of undefined (reading '" ++ key ++ "')"))
  | JNull =>
      throw (Error ("Cannot read properties of null (reading '" ++ key ++ "')"))
  | JObj fields => ret (lookup key fields)
  | _ => ret JUndefined
  end.

(** The channel of [p] is closed. *)
Definition is_broken (p : Port) (w : World) : bool :=
  existsb (Port_eqb p) (broken w).

(** [port.postMessage(message)]: throws on a port whose channel is
    closed, hands the message over otherwise.  The call is entered in
    [out] either way, with its outcome. *)
Definition postMessage (port : Port) (message : JSValue) : M unit :=
  b <- gets (is_broken port) ;;
  if b then
    emit (PostMessage port message false) ;;
    throw (Error "Attempting to use a disconnected port object")
  else
    emit (PostMessage port message true).

(** [ports.forEach(callbackfn)]: the index walk over the live entries.
    [fuel] bounds the number of entries visited (a callback that keeps
    adding entries would keep the walk going). *)
Fixpoint Set_forEach (fuel : nat) (callbackfn : Port -> M unit) (index : nat)
  : M unit :=
  fun w =>
    match nth_error (ports w) index with
    | None => (Normal tt, w)
    | Some e =>
        match fuel with
        | O => (OutOfFuel, w)
        | S fuel' =>
            match e with
            | None => Set_forEach fuel' callbackfn (S index) w
            | Some port =>
                (callbackfn port ;; Set_forEach fuel' callbackfn (S index)) w
            end
        end
    end.

(** ** Port registry: [broadcastToPopups], lines 103-112 *)

Definition broadcast_callback (message : JSValue) (port : Port) : M unit :=
  try_catch
    (postMessage port message)
    (fun error =>
       console_error "Error sending message to popup:" (error_value error) ;;
       modify (fun w => set_ports (Set_delete port (ports w)) w)).

Definition broadcastToPopups (message : JSValue) : M unit :=
  fun w => Set_forEach (List.length (ports w)) (broadcast_callback message) 0 w.

(** ** Timers and sockets *)

Definition MAX_RECONNECT_ATTEMPTS : nat := 5.
Definition RECONNECT_DELAY : Z := 1000. (* 1 second *)

Definition setTimeout (cb : Callback) (delay : Z) : M unit :=
  emit (SetTimeout cb delay) ;;
  modify (fun w =>
            set_timers (timers w ++ [{| due := (now w + delay)%Z; callback := cb;
                                        period := None |}]) w).

Definition setInterval (cb : Callback) (delay : Z) : M unit :=
  emit (SetInterval cb delay) ;;
  modify (fun w =>
            set_timers (timers w ++ [{| due := (now w + delay)%Z; callback := cb;
                                        period := Some delay |}]) w).

Fixpoint set_nth {A} (i : nat) (x : A) (l : list A) : list A :=
  match l, i with
  | [], _ => []
  | _ :: rest, O => x :: rest
  | y :: rest, S j => y :: set_nth j x rest
  end.

Definition readyState (s : nat) (w : World) : option ReadyState :=
  nth_error (sockets w) s.

Definition set_readyState (s : nat) (r : ReadyState) (w : World) : World :=
  set_sockets (set_nth s r (sockets w)) w.

(** [new WebSocket(url)]: a fresh socket, connecting. *)
Definition new_WebSocket (url : string) : M nat :=
  s <- gets (fun w => List.length (sockets w)) ;;
  emit (WebSocketNew s url) ;;
  modify (fun w => set_sockets (sockets w ++ [CONNECTING]) w) ;;
  ret s.

(** [socket.close()]: starts the closing handshake; nothing on a socket
    that is closing or closed. *)
Definition WebSocket_close (s : nat) : M unit :=
  r <- gets (readyState s) ;;
  match r with
  | Some CONNECTING | Some OPEN =>
      emit (WebSocketClose s) ;; modify (set_readyState s CLOSING)
  | _ => ret tt
  end.

Definition setBadgeText (text : string) : M unit :=
  emit (SetBadgeText text) ;; modify (set_badgeText text).

Definition setBadgeBackgroundColor (color : string) : M unit :=
  emit (SetBadgeBackgroundColor color) ;; modify (set_badgeColor color).

(** ** Connection manager: [connectWebSocket], lines 11-48 *)

Definition connectWebSocket : M unit :=
  cur <- gets ws ;;
  match cur with
  | Some s => WebSocket_close s
  | None => ret tt
  end ;;
  s <- new_WebSocket "ws://localhost:5000/ws" ;;
  modify (set_ws (Some s)).

Definition connection_status (status : string) : JSValue :=
  JObj [("type", JStr "connection_status"); ("status", JStr status)].

(** [ws.onopen], lines 18-22 *)
Definition ws_onopen : M unit :=
  console_log "Connected to WebSocket server" ;;
  modify (set_reconnectAttempts 0) ;;
  broadcastToPopups (connection_status "connected").

(** [ws.onclose], lines 24-33 *)
Definition ws_onclose : M unit :=
  console_log "WebSocket connection closed" ;;
  broadcastToPopups (connection_status "disconnected") ;;
  n <- gets reconnectAttempts ;;
  if Nat.ltb n MAX_RECONNECT_ATTEMPTS then
    modify (set_reconnectAttempts (n + 1)) ;;
    n' <- gets reconnectAttempts ;;
    setTimeout CbConnectWebSocket (RECONNECT_DELAY * Z.of_nat n')%Z
  else ret tt.

(** [ws.onerror], lines 35-38 *)
Definition ws_onerror : M unit :=
  console_error "WebSocket error:" (JObj [("type", JStr "error")]) ;;
  broadcastToPopups
    (JObj [("type", JStr "error"); ("message", JStr "WebSocket connection error")]).

(** ** Message router, lines 51-100 *)

(** [handleTaskUpdate], lines 70-83 *)
Definition handleTaskUpdate (message : JSValue) : M unit :=
  status <- get_member message "status" ;;
  if strict_eq_str status "running" then
    setBadgeText "⚡" ;;
    setBadgeBackgroundColor "#FFC107"
  else if strict_eq_str status "completed" then
    setBadgeText "✓" ;;
    setBadgeBackgroundColor "#4CAF50" ;;
    setTimeout CbClearBadge 3000
  else if strict_eq_str status "failed" then
    setBadgeText "!" ;;
    setBadgeBackgroundColor "#F44336"
  else ret tt.

(** [handleBrowserState], lines 86-89 *)
Definition handleBrowserState (message : JSValue) : M unit :=
  state <- get_member message "state" ;;
  emit (StorageLocalSet "browserState" state).

(** [handleError], lines 92-100 *)
Definition handleError (message : JSValue) : M unit :=
  error <- get_member message "error" ;;
  console_error "Error from server:" error ;;
  emit (NotificationsCreate
          [("type", JStr "basic");
           ("iconUrl", JStr "icons/icon48.png");
           ("title", JStr "Browser AI Agent Error");
           ("message", error)]).

(** [handleWebSocketMessage], lines 51-67 *)
Definition handleWebSocketMessage (message : JSValue) : M unit :=
  broadcastToPopups message ;;
  type <- get_member message "type" ;;
  if strict_eq_str type "task_update" then handleTaskUpdate message
  else if strict_eq_str type "browser_state" then handleBrowserState message
  else if strict_eq_str type "error" then handleError message
  else ret tt.

(** [ws.onmessage], lines 40-47.  The frame comes as what [JSON.parse]
    makes of its text: the SyntaxError it throws, or the value. *)
Definition ws_onmessage (parsed : JSError + JSValue) : M unit :=
  try_catch
    (match parsed with
     | inl syntax_error => throw syntax_error
     | inr message => handleWebSocketMessage message
     end)
    (fun error =>
       console_error "Error parsing WebSocket message:" (error_value error)).

(** The keep-alive, lines 179-183 *)
Definition ping : M unit :=
  cur <- gets ws ;;
  match cur with
  | Some s =>
      r <- gets (readyState s) ;;
      match r with
      | Some OPEN => emit (WebSocketSend s (JObj [("type", JStr "ping")]))
      | _ => ret tt
      end
  | None => ret tt
  end.

(** ** Task submitter: [executeTask], lines 138-176

    An [async] function runs up to its first [await] when called, and
    from one [await] to the next each time the awaited promise settles;
    other listeners run in between.  [executeTask] is the part up to the
    first [await]; [executeTask_resume] is the part run at a
    settlement.  Both lie inside the [try] of lines 139-175. *)

Definition fetch (url method : string) (body : option JSValue) : M unit :=
  emit (Fetch url method body).

Definition suspend (a : Awaiting) : M unit :=
  modify (fun w =>
            set_next_task (S (next_task w))
              (set_tasks (tasks w ++ [(next_task w, a)]) w)).

(** The [catch] of lines 169-175. *)
Definition executeTask_catch (error : JSError) : M unit :=
  console_error "Error executing task:" (error_value error) ;;
  broadcastToPopups
    (JObj [("type", JStr "error");
           ("message",
            JStr ("Failed to execute task: " ++ error_message error)%string)]).

Definition executeTask (task : JSValue) : M unit :=
  try_catch
    (fetch "http://localhost:5000/api/tasks" "POST" (Some task) ;;
     suspend AwaitCreate)
    executeTask_catch.

(** What the function does when the promise it awaits at [a] settles
    with [s]; the value returned is the next suspension point, or [None]
    when the function has run to its end.  A settlement of the wrong
    kind for [a] is not one of this promise: the function stays
    suspended. *)
Definition executeTask_resume (a : Awaiting) (s : Settled)
  : M (option Awaiting) :=
  try_catch
    (match a, s with
     | _, Rejected error => throw error
     | AwaitCreate, Response ok =>
         if negb ok then throw (Error "Failed to create task")
         else ret (Some AwaitJson)
     | AwaitJson, Json taskData =>
         task_id <- get_member taskData "task_id" ;;
         fetch ("http://localhost:5000/api/execute/" ++ ToString task_id)%string
               "POST" None ;;
         ret (Some (AwaitExecute taskData))
     | AwaitExecute taskData, Response ok =>
         if negb ok then throw (Error "Failed to execute task")
         else
           task_id <- get_member taskData "task_id" ;;
           broadcastToPopups
             (JObj [("type", JStr "task_created"); ("taskId", task_id)]) ;;
           ret None
     | _, _ => ret (Some a)
     end)
    (fun error => executeTask_catch error ;; ret None).

(** ** Connections from a popup: the [onConnect] listener, lines 115-135 *)

Definition current_status (w : World) : string :=
  match ws w with
  | Some s =>
      match readyState s w with
      | Some OPEN => "connected"
      | _ => "disconnected"
      end
  | None => "disconnected"
  end.

Definition onConnect (port : Port) : M unit :=
  if String.eqb (port_name port) "popup" then
    modify (fun w => set_ports (Set_add port (ports w)) w) ;;
    status <- gets current_status ;;
    postMessage port (connection_status status) ;;
    modify (fun w => set_listeners (port :: listeners w) w)
  else ret tt.

(** [port.onDisconnect] listener, lines 125-127 *)
Definition port_onDisconnect (port : Port) : M unit :=
  modify (fun w => set_ports (Set_delete port (ports w)) w).

(** [port.onMessage] listener, lines 129-133 *)
Definition port_onMessage (message : JSValue) : M unit :=
  type <- get_member message "type" ;;
  if strict_eq_str type "execute_task" then
    task <- get_member message "task" ;;
    executeTask task
  else ret tt.

(** ** The event loop *)

Definition run_callback (cb : Callback) : M unit :=
  match cb with
  | CbConnectWebSocket => connectWebSocket
  | CbClearBadge => setBadgeText ""
  | CbPing => ping
  end.

Fixpoint min_due (l : list Timer) : option Z :=
  match l with
  | [] => None
  | t :: rest =>
      match min_due rest with
      | Some d => Some (Z.min (due t) d)
      | None => Some (due t)
      end
  end.

(** The first timer due at [d], and the others. *)
Fixpoint take_due (d : Z) (l : list Timer) : option (Timer * list Timer) :=
  match l with
  | [] => None
  | t :: rest =>
      if Z.eqb (due t) d then Some (t, rest)
      else match take_due d rest with
           | Some (u, rest') => Some (u, t :: rest')
           | None => None
           end
  end.

Definition rearm (fired_at : Z) (t : Timer) : list Timer :=
  match period t with
  | Some d => [{| due := (fired_at + d)%Z; callback := callback t; period := Some d |}]
  | None => []
  end.

(** The timer due first fires (the earliest armed among equals); the
    clock moves up to its due time. *)
Definition fire_timer (w : World) : World :=
  match min_due (timers w) with
  | None => w
  | Some d =>
      match take_due d (timers w) with
      | None => w
      | Some (t, rest) =>
          let at_ := Z.max (now w) d in
          exec (run_callback (callback t))
               (set_now at_ (set_timers (rest ++ rearm at_ t) w))
      end
  end.

(** Time passes, but not beyond the next timer. *)
Definition elapse (d : Z) (w : World) : World :=
  match min_due (timers w) with
  | None => set_now (Z.max (now w) (now w + d)) w
  | Some m => set_now (Z.max (now w) (Z.min (now w + d) m)) w
  end.

Definition has_listeners (p : Port) (w : World) : bool :=
  existsb (Port_eqb p) (listeners w).

Definition lookup_task (id : nat) (w : World) : option Awaiting :=
  match find (fun e => Nat.eqb (fst e) id) (tasks w) with
  | Some (_, a) => Some a
  | None => None
  end.

Definition drop_task (id : nat) (w : World) : World :=
  set_tasks (filter (fun e => negb (Nat.eqb (fst e) id)) (tasks w)) w.

Definition settle (id : nat) (s : Settled) (w : World) : World :=
  match lookup_task id w with
  | None => w
  | Some a =>
      match executeTask_resume a s w with
      | (Normal (Some a'), w') =>
          set_tasks (map (fun e => if Nat.eqb (fst e) id then (id, a') else e)
                         (tasks w')) w'
      | (_, w') => drop_task id w'
      end
  end.

Inductive Event : Type :=
| EvPortConnect (p : Port)                  (* chrome.runtime.onConnect *)
| EvPortBreak (p : Port)                    (* the channel of p closes *)
| EvPortDisconnect (p : Port)               (* p.onDisconnect *)
| EvPortMessage (p : Port) (message : JSValue)
| EvWsOpen (s : nat)
| EvWsClose (s : nat)
| EvWsError (s : nat)
| EvWsMessage (s : nat) (parsed : JSError + JSValue)
| EvSettle (id : nat) (s : Settled)         (* an awaited promise settles *)
| EvTimer                                   (* the next timer fires *)
| EvElapse (d : Z).

Definition has_socket (s : nat) (w : World) : bool :=
  Nat.ltb s (List.length (sockets w)).

(** One turn of the event loop.  A listener that throws leaves the world
    as it was at the throw.  A port has listeners only once [onConnect]
    gave it some; a socket has handlers once [connectWebSocket] made it. *)
Definition dispatch (ev : Event) (w : World) : World :=
  match ev with
  | EvPortConnect p => exec (onConnect p) w
  | EvPortBreak p => set_broken (p :: broken w) w
  | EvPortDisconnect p =>
      let w' := set_broken (p :: broken w) w in
      if has_listeners p w then exec (port_onDisconnect p) w' else w'
  | EvPortMessage p message =>
      if has_listeners p w then exec (port_onMessage message) w else w
  | EvWsOpen s =>
      if has_socket s w then exec ws_onopen (set_readyState s OPEN w) else w
  | EvWsClose s =>
      if has_socket s w then exec ws_onclose (set_readyState s CLOSED w) else w
  | EvWsError s =>
      if has_socket s w then exec ws_onerror w else w
  | EvWsMessage s parsed =>
      if has_socket s w then exec (ws_onmessage parsed) w else w
  | EvSettle id s => settle id s w
  | EvTimer => fire_timer w
  | EvElapse d => elapse d w
  end.

Fixpoint run (evs : list Event) (w : World) : World :=
  match evs with
  | [] => w
  | ev :: rest => run rest (dispatch ev w)
  end.

(** The script's top level: the variables of lines 2-8, the keep-alive
    interval of line 179, the first [connectWebSocket()] of line 186. *)
Definition empty_world : World :=
  {| ws := None; reconnectAttempts := 0; ports := [];
     sockets := []; listeners := []; broken := []; timers := []; now := 0%Z;
     badgeText := ""; badgeColor := ""; tasks := []; next_task := 0;
     out := [] |}.

Definition script : M unit :=
  setInterval CbPing 30000 ;;
  connectWebSocket.

Definition startup : World := exec script empty_world.

(** The calls made between [w] and a later world [w']. *)
Definition since (w w' : World) : list (Z * Effect) :=
  skipn (List.length (out w)) (out w').

(** * Specification

    What the properties below are stated with: the world a broadcast
    leaves, the calls made between two worlds, and the invariants of
    the event loop. *)

(** ** What a broadcast comes to

    The walk of [broadcastToPopups] visits every entry of the Set once,
    whatever it deletes on the way; the world it leaves is computed
    here entry by entry. *)

Definition disconnected_port : JSError :=
  Error "Attempting to use a disconnected port object".

(** The entry left in the Set for entry [e]. *)
Definition kept (w : World) (e : option Port) : option Port :=
  match e with
  | Some p => if is_broken p w then None else Some p
  | None => None
  end.

(** The calls made for entry [e]. *)
Definition sent (message : JSValue) (w : World) (e : option Port)
  : list (Z * Effect) :=
  match e with
  | Some p =>
      if is_broken p w then
        [(now w, PostMessage p message false);
         (now w, ConsoleError "Error sending message to popup:"
                   (error_value disconnected_port))]
      else [(now w, PostMessage p message true)]
  | None => []
  end.

Definition walked (message : JSValue) (w : World) (done rest : JSSet) : World :=
  set_ports (map (kept w) done ++ rest)
            (set_out (out w ++ flat_map (sent message w) done) w).

Definition broadcast_world (message : JSValue) (w : World) : World :=
  walked message w (ports w) [].

(** ** Invariants of listeners

    [preserves I m]: the computation [m] keeps [I], whether it returns
    or throws.  The rules below follow the shape of a listener. *)

Definition preserves {A} (I : World -> Prop) (m : M A) : Prop :=
  forall w, I w -> I (snd (m w)).

(** ** The entries of the Set are distinct *)

Definition live (s : JSSet) : list Port :=
  flat_map (fun e => match e with Some p => [p] | None => [] end) s.

Definition uniq (w : World) : Prop := NoDup (live (ports w)).

(** ** Who is sent what *)

(** The [postMessage] calls made on port [p] in a list of calls: the
    message, and whether the channel took it. *)
Fixpoint posts_to (p : Port) (calls : list (Z * Effect))
  : list (JSValue * bool) :=
  match calls with
  | [] => []
  | (_, PostMessage q message delivered) :: rest =>
      if Port_eqb q p then (message, delivered) :: posts_to p rest
      else posts_to p rest
  | _ :: rest => posts_to p rest
  end.

(** ** A port that is not in the Set is sent nothing *)

Definition targets (p : Port) (e : Effect) : bool :=
  match e with
  | PostMessage q _ _ => Port_eqb q p
  | _ => false
  end.

(** The event is port [p] connecting. *)
Definition connects (p : Port) (ev : Event) : bool :=
  match ev with
  | EvPortConnect q => Port_eqb q p
  | _ => false
  end.

(** [p] is not in the Set, and no call made after [base] is a
    [postMessage] on [p]. *)
Definition absent (p : Port) (base : list (Z * Effect)) (w : World) : Prop :=
  Set_has p (ports w) = false /\
  exists extra, out w = base ++ extra /\ posts_to p extra = [].

(** ** Reconnection *)

Definition reconnect_delay (e : Effect) : list Z :=
  match e with
  | SetTimeout CbConnectWebSocket delay => [delay]
  | _ => []
  end.

(** The delays of the [setTimeout(connectWebSocket, ...)] calls, in order. *)
Definition reconnect_delays (calls : list (Z * Effect)) : list Z :=
  flat_map (fun c => reconnect_delay (snd c)) calls.

Definition is_close_log (e : Effect) : bool :=
  match e with
  | ConsoleLog text => String.eqb text "WebSocket connection closed"
  | _ => false
  end.

(** The number of runs of [ws.onclose], by the line each one logs. *)
Definition closes (calls : list (Z * Effect)) : nat :=
  List.length (filter (fun c => is_close_log (snd c)) calls).

Definition is_open_event (ev : Event) : bool :=
  match ev with EvWsOpen _ => true | _ => false end.

Definition is_close_event (ev : Event) : bool :=
  match ev with EvWsClose _ => true | _ => false end.

(** The counter is [n]; the calls made after [base] scheduled the
    reconnections [ds] and logged [c] closes. *)
Definition quiet (n : nat) (ds : list Z) (c : nat) (base : list (Z * Effect))
           (w : World) : Prop :=
  reconnectAttempts w = n /\
  exists extra, out w = base ++ extra /\
                reconnect_delays extra = ds /\ closes extra = c.

Definition backoff (k : nat) : Z := (RECONNECT_DELAY * Z.of_nat k)%Z.

(** After [c] closes and no open since the counter stood at zero. *)
Definition backed_off (base : list (Z * Effect)) (w : World) : Prop :=
  exists c, quiet (Nat.min MAX_RECONNECT_ATTEMPTS c)
                  (map backoff (seq 1 (Nat.min MAX_RECONNECT_ATTEMPTS c)))
                  c base w.

(** At the ceiling: counter unchanged, nothing scheduled, whatever the
    number of closes. *)
Definition at_ceiling (n : nat) (base : list (Z * Effect)) (w : World) : Prop :=
  exists c, quiet n [] c base w.

(** ** Task submission *)


Definition execute_url (task_id : JSValue) : string :=
  ("http://localhost:5000/api/execute/" ++ ToString task_id)%string.

(** The requests made in a list of calls. *)
Definition fetches (calls : list (Z * Effect)) : list (string * string) :=
  flat_map (fun c => match snd c with
                     | Fetch url method _ => [(method, url)]
                     | _ => []
                     end) calls.

(** The event of the [catch] block for an error with message [m]. *)
Definition failure_report (m : string) : JSValue :=
  JObj [("type", JStr "error");
        ("message", JStr ("Failed to execute task: " ++ m)%string)].

Definition task_created (task_id : JSValue) : JSValue :=
  JObj [("type", JStr "task_created"); ("taskId", task_id)].



(** ** The router *)

Definition is_post (e : Effect) : bool :=
  match e with
  | PostMessage _ _ _ => true
  | _ => false
  end.

(** The Set is [s]; the calls made after [base] are no [postMessage]. *)
Definition side_only (s : JSSet) (base : list (Z * Effect)) (w : World) : Prop :=
  ports w = s /\
  exists side, out w = base ++ side /\
               Forall (fun c => is_post (snd c) = false) side.

(** The part of [handleWebSocketMessage] after the broadcast. *)
Definition route (message : JSValue) : M unit :=
  type <- get_member message "type" ;;
  if strict_eq_str type "task_update" then handleTaskUpdate message
  else if strict_eq_str type "browser_state" then handleBrowserState message
  else if strict_eq_str type "error" then handleError message
  else ret tt.

Definition recognized (type : JSValue) : bool :=
  strict_eq_str type "task_update" || strict_eq_str type "browser_state"
  || strict_eq_str type "error".

(** The bodies (the [message] option) of the notifications created in a
    list of calls. *)
Definition alerts (calls : list (Z * Effect)) : list JSValue :=
  flat_map (fun c => match snd c with
                     | NotificationsCreate options => [lookup "message" options]
                     | _ => []
                     end) calls.

(** The timer armed by a completed update at clock [t0]. *)
Definition clear_timer (t0 : Z) : Timer :=
  {| due := (t0 + 3000)%Z; callback := CbClearBadge; period := None |}.

(** The calls made after [base] are [extra]; timer [T] is still armed
    and its time has not passed, or the text of the badge was set to the
    empty string at its due time, after [base]. *)
Definition clearing (T : Timer) (base : list (Z * Effect)) (w : World) : Prop :=
  exists extra,
    out w = base ++ extra /\
    ((In T (timers w) /\ (now w <= due T)%Z) \/
     In (due T, SetBadgeText "") extra).

Definition is_clear (t : Timer) : bool := Callback_eqb (callback t) CbClearBadge.

(** No timer armed by a completed update is waiting. *)
Definition no_clear_pending (w : World) : bool :=
  forallb (fun t => negb (is_clear t)) (timers w).

(** The badge shows [text] and nothing armed will clear it. *)
Definition shown (text : string) (w : World) : Prop :=
  badgeText w = text /\ no_clear_pending w = true.

(** A frame that is a task update: the one thing from the backend that
    sets the badge. *)
Definition is_task_update (parsed : JSError + JSValue) : bool :=
  match parsed with
  | inr (JObj fields) => strict_eq_str (lookup "type" fields) "task_update"
  | _ => false
  end.

Definition is_task_update_event (ev : Event) : bool :=
  match ev with
  | EvWsMessage _ parsed => is_task_update parsed
  | _ => false
  end.

Definition task_update (status : string) : JSValue :=
  JObj [("type", JStr "task_update"); ("status", JStr status)].

(** ** Only popups are registered *)

Definition to_popup (e : Effect) : Prop :=
  match e with
  | PostMessage q _ _ => port_name q = "popup"
  | _ => True
  end.

(** Every port in the Set, every port with listeners and every port a
    message was ever posted on was opened under the name popup. *)
Definition popup_only (w : World) : Prop :=
  Forall (fun p => port_name p = "popup") (live (ports w)) /\
  Forall (fun p => port_name p = "popup") (listeners w) /\
  Forall (fun c => to_popup (snd c)) (out w).

(** * Further properties: definitions *)

(** ** Reconnection, in every run *)

(** A delay the backoff can produce: 1 to 5 times [RECONNECT_DELAY]. *)
Definition valid_delay (d : Z) : bool :=
  existsb (fun k => Z.eqb d (backoff k)) (seq 1 MAX_RECONNECT_ATTEMPTS).

(** The counter is within the ceiling and every reconnection ever
    scheduled has a delay of the backoff. *)
Definition bounded_retries (w : World) : Prop :=
  reconnectAttempts w <= MAX_RECONNECT_ATTEMPTS /\
  forallb valid_delay (reconnect_delays (out w)) = true.

(** ** One connection *)

(** What the browser does with sockets: the open event is fired on a
    socket that is connecting, and on no other. *)
Definition browser_allows (ev : Event) (w : World) : bool :=
  match ev with
  | EvWsOpen s =>
      match readyState s w with
      | Some CONNECTING => true
      | _ => false
      end
  | _ => true
  end.

Fixpoint browser_run (evs : list Event) (w : World) : bool :=
  match evs with
  | [] => true
  | ev :: rest => browser_allows ev w && browser_run rest (dispatch ev w)
  end.

Definition is_idle (r : ReadyState) : bool :=
  match r with
  | CLOSING | CLOSED => true
  | _ => false
  end.

(** [ws] holds a socket, and every other socket ever made is closing or
    closed. *)
Definition one_connection (w : World) : Prop :=
  (exists cur, ws w = Some cur /\ has_socket cur w = true) /\
  forall s r, readyState s w = Some r -> ws w <> Some s -> is_idle r = true.

(** ** What an event never causes *)

(** No call made after [base] is one that [keep] picks. *)
Definition unseen (keep : Effect -> bool) (base : list (Z * Effect))
           (w : World) : Prop :=
  exists extra, out w = base ++ extra /\
                forallb (fun c => negb (keep (snd c))) extra = true.

(** The calls of the router's handlers on the user's side: a
    notification, a write to the storage, the colour of the badge. *)
Definition router_effect (e : Effect) : bool :=
  match e with
  | NotificationsCreate _ | StorageLocalSet _ _ | SetBadgeBackgroundColor _ => true
  | _ => false
  end.

Definition is_frame_event (ev : Event) : bool :=
  match ev with EvWsMessage _ _ => true | _ => false end.

Definition is_fetch (e : Effect) : bool :=
  match e with Fetch _ _ _ => true | _ => false end.

(** A message from a popup, or the settlement of a promise of
    [executeTask]. *)
Definition is_submission_event (ev : Event) : bool :=
  match ev with EvPortMessage _ _ | EvSettle _ _ => true | _ => false end.

Definition socket_call (e : Effect) : bool :=
  match e with
  | WebSocketNew _ _ | WebSocketClose _ | WebSocketSend _ _ => true
  | _ => false
  end.

Definition is_timer_event (ev : Event) : bool :=
  match ev with EvTimer => true | _ => false end.

(** ** The badge, in every run *)

(** The colour that goes with a text of the badge. *)
Definition badge_of_text (text : string) : option string :=
  if String.eqb text "⚡" then Some "#FFC107"
  else if String.eqb text "✓" then Some "#4CAF50"
  else if String.eqb text "!" then Some "#F44336"
  else None.

(** The badge is empty, or shows one of the three signs on its own
    colour. *)
Definition badge_ok (w : World) : bool :=
  String.eqb (badgeText w) ""
  || match badge_of_text (badgeText w) with
     | Some color => String.eqb color (badgeColor w)
     | None => false
     end.

(** ** The keep-alive *)

Definition is_ping_timer (t : Timer) : bool := Callback_eqb (callback t) CbPing.

(** What the keep-alive sends: [JSON.stringify({ type: 'ping' })]. *)
Definition ping_frame : JSValue := JObj [("type", JStr "ping")].

(** A clock value at which the interval of line 179 fires: 30000,
    60000, ... *)
Definition on_the_beat (t : Z) : Prop := (0 < t)%Z /\ (t mod 30000 = 0)%Z.

Definition ping_timer_ok (clock : Z) (t : Timer) : Prop :=
  is_ping_timer t = true ->
  period t = Some 30000%Z /\ (clock <= due t)%Z /\ on_the_beat (due t).

(** A call that writes to a socket writes the ping frame, on the beat. *)
Definition sent_ping (c : Z * Effect) : Prop :=
  match snd c with
  | WebSocketSend _ data => data = ping_frame /\ on_the_beat (fst c)
  | _ => True
  end.

Definition is_send (e : Effect) : bool :=
  match e with WebSocketSend _ _ => true | _ => false end.

(** One interval of the keep-alive is armed, for a beat to come, and
    every write to a socket so far was a ping on the beat. *)
Definition keep_alive (w : World) : Prop :=
  List.length (filter is_ping_timer (timers w)) = 1 /\
  Forall (ping_timer_ok (now w)) (timers w) /\
  Forall sent_ping (out w).

(** * The popup

    The second script of the file (lines 187-303): the state of the
    chat, the submit handler and its request to the backend, the
    rendering of messages and their persistence.  Its functions are
    embedded over a [Page]: the script's [state], the parts of the
    document it writes, the storage area, and the calls it makes. *)

Module Popup.

(** ** Strings *)

Fixpoint of_bytes (l : list nat) : string :=
  match l with
  | [] => ""
  | n :: rest => String (ascii_of_nat n) (of_bytes rest)
  end.

(** The code points [String.prototype.trim] removes, in UTF-8: the
    white space (TAB, VT, FF, SP, NBSP, ZWNBSP and the space
    separators) and the line terminators (LF, CR, LS, PS). *)
Definition WhiteSpace : list string :=
  map of_bytes
      [[9]; [11]; [12]; [32]; [194; 160]; [239; 187; 191];
       [225; 154; 128];
       [226; 128; 128]; [226; 128; 129]; [226; 128; 130]; [226; 128; 131];
       [226; 128; 132]; [226; 128; 133]; [226; 128; 134]; [226; 128; 135];
       [226; 128; 136]; [226; 128; 137]; [226; 128; 138];
       [226; 128; 175]; [226; 129; 159]; [227; 128; 128]].

Definition LineTerminator : list string :=
  map of_bytes [[10]; [13]; [226; 128; 168]; [226; 128; 169]].

Definition blanks : list string := WhiteSpace ++ LineTerminator.

Fixpoint strip_prefix (p s : string) : option string :=
  match p with
  | EmptyString => Some s
  | String a p' =>
      match s with
      | String b s' => if Ascii.eqb a b then strip_prefix p' s' else None
      | EmptyString => None
      end
  end.

(** [s] without the first of [ps] it starts with. *)
Fixpoint strip_any (ps : list string) (s : string) : option string :=
  match ps with
  | [] => None
  | p :: rest =>
      match strip_prefix p s with
      | Some s' => Some s'
      | None => strip_any rest s
      end
  end.

Fixpoint strip_all (fuel : nat) (ps : list string) (s : string) : string :=
  match fuel with
  | O => s
  | S fuel' =>
      match strip_any ps s with
      | Some s' => strip_all fuel' ps s'
      | None => s
      end
  end.

Fixpoint string_rev (s : string) : string :=
  match s with
  | EmptyString => EmptyString
  | String a s' => (string_rev s' ++ String a EmptyString)%string
  end.

Definition trimStart (s : string) : string :=
  strip_all (String.length s) blanks s.

Definition trimEnd (s : string) : string :=
  string_rev (strip_all (String.length s) (map string_rev blanks) (string_rev s)).

(** [s.trim()] *)
Definition trim (s : string) : string := trimEnd (trimStart s).

Definition toUpperCase_ascii (c : ascii) : ascii :=
  let n := nat_of_ascii c in
  if Nat.leb 97 n && Nat.leb n 122 then ascii_of_nat (n - 32) else c.

(** [s.charAt(0).toUpperCase() + s.slice(1)], for a string that starts
    with an ASCII character (the status names do). *)
Definition capitalize (s : string) : string :=
  match s with
  | EmptyString => EmptyString
  | String c rest => String (toUpperCase_ascii c) rest
  end.

(** ** The state and the page *)

(** The [type] of a message: the script writes 'user' and 'agent'. *)
Inductive Sender : Type := user | agent.

Definition sender_name (s : Sender) : string :=
  match s with
  | user => "user"
  | agent => "agent"
  end.

(** [state.status]: the script writes 'idle', 'thinking' and 'error'. *)
Inductive Status : Type := idle | thinking | error.

Definition status_name (s : Status) : string :=
  match s with
  | idle => "idle"
  | thinking => "thinking"
  | error => "error"
  end.

Record Message : Type :=
  { type : Sender; content : JSValue; timestamp : string }.

(** A child of [chatContainer]: its classes and the value assigned to
    its [textContent]. *)
Record Element : Type :=
  { classList : list string; textContent : JSValue }.

(** The suspension points of [handleSubmit]. *)
Inductive Awaiting : Type :=
| AwaitFetch   (* line 270: fetch, awaited in sendTask *)
| AwaitBody.   (* line 290: response.json(), awaited at line 222 *)

Inductive Effect : Type :=
| Fetch (url : string) (method : string) (body : JSValue)
| ConsoleError (text : string) (detail : JSValue).

Record Page : Type :=
  { status : Status;                   (* state.status *)
    messages : list Message;           (* state.messages *)
    chat : list Element;               (* the children of chatContainer *)
    input : string;                    (* userInput.value *)
    statusText : string;               (* statusText.textContent *)
    indicator : list string;           (* the classes of statusIndicator *)
    stored : option (list Message);    (* chrome.storage.local, key messages *)
    pending : list (nat * Awaiting);   (* suspended activations of handleSubmit *)
    next : nat;
    out : list Effect }.

Definition set_messages (v : list Message) (pg : Page) : Page :=
  {| status := status pg; messages := v; chat := chat pg; input := input pg;
     statusText := statusText pg; indicator := indicator pg;
     stored := stored pg; pending := pending pg; next := next pg;
     out := out pg |}.

Definition set_chat (v : list Element) (pg : Page) : Page :=
  {| status := status pg; messages := messages pg; chat := v; input := input pg;
     statusText := statusText pg; indicator := indicator pg;
     stored := stored pg; pending := pending pg; next := next pg;
     out := out pg |}.

Definition set_input (v : string) (pg : Page) : Page :=
  {| status := status pg; messages := messages pg; chat := chat pg; input := v;
     statusText := statusText pg; indicator := indicator pg;
     stored := stored pg; pending := pending pg; next := next pg;
     out := out pg |}.

Definition set_stored (v : option (list Message)) (pg : Page) : Page :=
  {| status := status pg; messages := messages pg; chat := chat pg;
     input := input pg; statusText := statusText pg; indicator := indicator pg;
     stored := v; pending := pending pg; next := next pg; out := out pg |}.

Definition set_pending (v : list (nat * Awaiting)) (n : nat) (pg : Page) : Page :=
  {| status := status pg; messages := messages pg; chat := chat pg;
     input := input pg; statusText := statusText pg; indicator := indicator pg;
     stored := stored pg; pending := v; next := n; out := out pg |}.

Definition emit (e : Effect) (pg : Page) : Page :=
  {| status := status pg; messages := messages pg; chat := chat pg;
     input := input pg; statusText := statusText pg; indicator := indicator pg;
     stored := stored pg; pending := pending pg; next := next pg;
     out := out pg ++ [e] |}.

(** [element.classList.add(token)] *)
Definition classList_add (token : string) (l : list string) : list string :=
  if existsb (String.eqb token) l then l else l ++ [token].

(** ** The functions of the script *)

(** [renderMessage], lines 249-257 (scrolling is not part of the page) *)
Definition renderMessage (message : Message) (pg : Page) : Page :=
  let messageElement :=
    {| classList :=
         classList_add (sender_name (type message) ++ "-message")%string
                       (classList_add "message" []);
       textContent := content message |} in
  set_chat (chat pg ++ [messageElement]) pg.

(** [saveMessages], lines 293-295 *)
Definition saveMessages (pg : Page) : Page :=
  set_stored (Some (messages pg)) pg.

(** [addMessage], lines 237-247; [now_iso] is [new Date().toISOString()] *)
Definition addMessage (sender : Sender) (c : JSValue) (now_iso : string)
           (pg : Page) : Page :=
  let message := {| type := sender; content := c; timestamp := now_iso |} in
  saveMessages (renderMessage message (set_messages (messages pg ++ [message]) pg)).

(** [updateStatus], lines 259-266 *)
Definition updateStatus (s : Status) (pg : Page) : Page :=
  {| status := s; messages := messages pg; chat := chat pg; input := input pg;
     statusText := capitalize (status_name s);
     indicator :=
       match s with
       | idle => ["status-indicator"]
       | _ => classList_add (status_name s) ["status-indicator"]
       end;
     stored := stored pg; pending := pending pg; next := next pg;
     out := out pg |}.

Definition is_user (m : Message) : bool :=
  match type m with
  | user => true
  | agent => false
  end.

(** The body of the request of [sendTask], lines 275-283 (before
    [JSON.stringify]). *)
Definition task_body (text : string) (pg : Page) : JSValue :=
  JObj [("task_text", JStr text);
        ("context",
         JObj [("previous_tasks", JArr (map content (filter is_user (messages pg))));
               ("browser_state", JObj [])])].

Definition suspend (a : Awaiting) (pg : Page) : Page :=
  set_pending (pending pg ++ [(next pg, a)]) (S (next pg)) pg.

(** [handleSubmit], lines 209-222, up to its first [await] (the one of
    the [fetch] in [sendTask]). *)
Definition handleSubmit (now_iso : string) (pg : Page) : Page :=
  let text := trim (input pg) in
  if String.eqb text "" then pg
  else
    let pg := addMessage user (JStr text) now_iso pg in
    let pg := set_input "" pg in
    let pg := updateStatus thinking pg in
    suspend AwaitFetch
            (emit (Fetch "http://localhost:5000/api/tasks" "POST"
                         (task_body text pg)) pg).

(** The [catch] of lines 229-233. *)
Definition handleSubmit_catch (e : JSError) (now_iso : string) (pg : Page) : Page :=
  updateStatus error
    (addMessage agent
       (JStr "Sorry, there was an error processing your request.") now_iso
       (emit (ConsoleError "Error:" (error_value e)) pg)).

(** Lines 224-228, with [result] the value of [response.result]. *)
Definition handleSubmit_done (result : JSValue) (now_iso : string) (pg : Page)
  : Page :=
  updateStatus idle (addMessage agent result now_iso pg).

(** What [handleSubmit] does when the promise it awaits at [a] settles
    with [s] (lines 286-290 of [sendTask], then lines 224-233): the page
    it leaves, and the next suspension point if it has not run to its
    end.  A settlement of the wrong kind is not one of this promise. *)
Definition handleSubmit_resume (a : Awaiting) (s : Settled) (now_iso : string)
           (pg : Page) : Page * option Awaiting :=
  match a, s with
  | _, Rejected e => (handleSubmit_catch e now_iso pg, None)
  | AwaitFetch, Response ok =>
      if negb ok
      then (handleSubmit_catch (Error "Network response was not ok") now_iso pg,
            None)
      else (pg, Some AwaitBody)
  | AwaitBody, Json response =>
      match response with
      | JNull =>
          (handleSubmit_catch
             (Error "Cannot read properties of null (reading 'result')")
             now_iso pg, None)
      | JUndefined =>
          (handleSubmit_catch
             (Error "Cannot read properties of undefined (reading 'result')")
             now_iso pg, None)
      | JObj fields => (handleSubmit_done (lookup "result" fields) now_iso pg, None)
      | _ => (handleSubmit_done JUndefined now_iso pg, None)
      end
  | _, _ => (pg, Some a)
  end.

(** The callback of [chrome.storage.local.get], lines 298-303; [loaded]
    is [result.messages]. *)
Definition onLoaded (loaded : option (list Message)) (pg : Page) : Page :=
  match loaded with
  | Some l => fold_left (fun pg m => renderMessage m pg) l (set_messages l pg)
  | None => pg
  end.

(** ** The event loop of the popup *)

Inductive Event : Type :=
| Click (now_iso : string)                            (* on submitBtn *)
| KeyDown (key : string) (shiftKey : bool) (now_iso : string)  (* in userInput *)
| Edit (value : string)                               (* the user edits the input *)
| Loaded (result : option (list Message))             (* storage answers *)
| Settle (id : nat) (s : Settled) (now_iso : string). (* an awaited promise settles *)

Definition settle (id : nat) (s : Settled) (now_iso : string) (pg : Page) : Page :=
  match find (fun e => Nat.eqb (fst e) id) (pending pg) with
  | None => pg
  | Some (_, a) =>
      match handleSubmit_resume a s now_iso pg with
      | (pg', Some a') =>
          set_pending (map (fun e => if Nat.eqb (fst e) id then (id, a') else e)
                           (pending pg')) (next pg') pg'
      | (pg', None) =>
          set_pending (filter (fun e => negb (Nat.eqb (fst e) id)) (pending pg'))
                      (next pg') pg'
      end
  end.

Definition dispatch (ev : Event) (pg : Page) : Page :=
  match ev with
  | Click now_iso => handleSubmit now_iso pg
  | KeyDown key shiftKey now_iso =>
      (* lines 201-206 *)
      if String.eqb key "Enter" && negb shiftKey then handleSubmit now_iso pg
      else pg
  | Edit value => set_input value pg
  | Loaded result => onLoaded result pg
  | Settle id s now_iso => settle id s now_iso pg
  end.

Fixpoint run (evs : list Event) (pg : Page) : Page :=
  match evs with
  | [] => pg
  | ev :: rest => run rest (dispatch ev pg)
  end.

(** The page when the script starts: the state of lines 187-190, the
    document as the markup has it, the storage as the last session left
    it. *)
Definition initial (markup_text : string) (markup_classes : list string)
           (saved : option (list Message)) : Page :=
  {| status := idle; messages := []; chat := []; input := "";
     statusText := markup_text; indicator := markup_classes;
     stored := saved; pending := []; next := 0; out := [] |}.

(** ** What the properties are stated with *)

(** The element [renderMessage] makes for a message. *)
Definition element_of (m : Message) : Element :=
  {| classList := ["message"; (sender_name (type m) ++ "-message")%string];
     textContent := content m |}.

(** The chat shows the messages of the state, and the storage holds
    them (or holds nothing, when there are none yet). *)
Definition mirrored (pg : Page) : Prop :=
  chat pg = map element_of (messages pg) /\
  (stored pg = Some (messages pg) \/ (stored pg = None /\ messages pg = [])).

Definition is_loaded (ev : Event) : bool :=
  match ev with Loaded _ => true | _ => false end.

(** The label and the classes that go with a status. *)
Definition label_of (s : Status) : string :=
  match s with
  | idle => "Idle"
  | thinking => "Thinking"
  | error => "Error"
  end.

Definition classes_of (s : Status) : list string :=
  match s with
  | idle => ["status-indicator"]
  | thinking => ["status-indicator"; "thinking"]
  | error => ["status-indicator"; "error"]
  end.

(** The text is made of the characters [trim] removes. *)
Definition blank (s : string) : Prop :=
  exists parts, Forall (fun c => In c blanks) parts /\
                s = fold_right String.append "" parts.

End Popup.

Module PopupSpec.

(** The label and the indicator are the markup's, untouched, or those
    of the status. *)
Definition status_shown (markup_text : string) (markup_classes : list string)
           (pg : Popup.Page) : Prop :=
  (Popup.statusText pg = markup_text /\ Popup.indicator pg = markup_classes /\
   Popup.status pg = Popup.idle) \/
  (Popup.statusText pg = Popup.label_of (Popup.status pg) /\
   Popup.indicator pg = Popup.classes_of (Popup.status pg)).

End PopupSpec.

(** * Proofs *)

(** ** Equality of ports *)

Lemma Port_eqb_spec (p q : Port) : reflect (p = q) (Port_eqb p q).
Proof.
  destruct p as [i n], q as [j m]; unfold Port_eqb; simpl.
  destruct (Nat.eqb_spec i j) as [->|Hi]; simpl.
  - destruct (String.eqb_spec n m) as [->|Hn]; constructor; congruence.
  - constructor; congruence.
Qed.

Lemma Port_eqb_refl (p : Port) : Port_eqb p p = true.
Proof. destruct (Port_eqb_spec p p); congruence. Qed.

(** ** The walk of a broadcast *)

Lemma world_eta (w : World) : set_ports (ports w) (set_out (out w) w) = w.
Proof. destruct w; reflexivity. Qed.

Lemma walked_start (message : JSValue) (w : World) :
  walked message w [] (ports w) = w.
Proof.
  unfold walked; simpl. rewrite app_nil_r. apply world_eta.
Qed.

Lemma is_broken_walked message w done rest p :
  is_broken p (walked message w done rest) = is_broken p w.
Proof. reflexivity. Qed.

Lemma Set_delete_skip (p : Port) (pre rest : JSSet) :
  forallb (fun e => negb (is_entry p e)) pre = true ->
  Set_delete p (pre ++ Some p :: rest) = pre ++ None :: rest.
Proof.
  induction pre as [|e pre IH]; simpl; intros H.
  - now rewrite Port_eqb_refl.
  - apply andb_prop in H as [He Hpre].
    apply negb_true_iff in He. rewrite He. now rewrite IH.
Qed.

Lemma kept_not_broken (w : World) (p : Port) (l : JSSet) :
  is_broken p w = true ->
  forallb (fun e => negb (is_entry p e)) (map (kept w) l) = true.
Proof.
  intros Hp. induction l as [|e l IH]; simpl; [reflexivity|].
  rewrite IH, andb_true_r.
  destruct e as [q|]; simpl; [|reflexivity].
  destruct (is_broken q w) eqn:Hq; simpl; [reflexivity|].
  destruct (Port_eqb_spec q p) as [->|]; [congruence|reflexivity].
Qed.

Lemma walked_step (message : JSValue) (w : World) (done rest : JSSet) (p : Port) :
  broadcast_callback message p (walked message w done (Some p :: rest))
  = (Normal tt, walked message w (done ++ [Some p]) rest).
Proof.
  unfold broadcast_callback, try_catch, postMessage, bind, gets.
  rewrite is_broken_walked.
  unfold walked. rewrite !map_app, !flat_map_app; simpl.
  destruct (is_broken p w) eqn:Hp; simpl.
  - unfold emit, modify, throw, console_error, emit, modify, bind; simpl.
    rewrite Set_delete_skip by now apply kept_not_broken.
    rewrite <- !app_assoc; simpl. reflexivity.
  - unfold emit, modify; simpl.
    rewrite <- !app_assoc; simpl. reflexivity.
Qed.

Lemma walked_empty (message : JSValue) (w : World) (done rest : JSSet) :
  walked message w done (None :: rest) = walked message w (done ++ [None]) rest.
Proof.
  unfold walked. rewrite !map_app, !flat_map_app; simpl.
  rewrite <- !app_assoc, app_nil_r; reflexivity.
Qed.

Lemma nth_error_walked message w done rest :
  nth_error (ports (walked message w done rest)) (List.length done)
  = nth_error rest 0.
Proof.
  unfold walked; simpl.
  rewrite nth_error_app2 by (rewrite length_map; lia).
  rewrite length_map, Nat.sub_diag. reflexivity.
Qed.

(** The walk from any point on, with fuel for the entries left. *)
Lemma Set_forEach_walked (message : JSValue) (w : World) :
  forall (rest done : JSSet) (fuel : nat),
    List.length rest <= fuel ->
    Set_forEach fuel (broadcast_callback message) (List.length done)
                (walked message w done rest)
    = (Normal tt, walked message w (done ++ rest) []).
Proof.
  induction rest as [|e rest IH]; intros done fuel Hfuel.
  - rewrite app_nil_r.
    destruct fuel; cbn [Set_forEach]; rewrite nth_error_walked; reflexivity.
  - destruct fuel as [|fuel]; [simpl in Hfuel; lia|].
    simpl in Hfuel. cbn [Set_forEach]. rewrite nth_error_walked. cbn [nth_error].
    replace (done ++ e :: rest) with ((done ++ [e]) ++ rest)
      by (rewrite <- app_assoc; reflexivity).
    replace (S (List.length done)) with (List.length (done ++ [e]))
      by (rewrite length_app; simpl; lia).
    destruct e as [p|].
    + unfold bind. rewrite walked_step. apply IH. lia.
    + rewrite walked_empty. apply IH. lia.
Qed.

(** [broadcastToPopups] returns, and leaves [broadcast_world]. *)
Lemma broadcastToPopups_eq (message : JSValue) (w : World) :
  broadcastToPopups message w = (Normal tt, broadcast_world message w).
Proof.
  unfold broadcastToPopups, broadcast_world.
  rewrite <- (walked_start message w) at 2.
  change 0 with (List.length (@nil (option Port))).
  rewrite Set_forEach_walked by lia. reflexivity.
Qed.

(** More fuel changes nothing: the bound in [broadcastToPopups] is never
    what ends the walk. *)
Lemma Set_forEach_fuel (message : JSValue) (w : World) (fuel : nat) :
  List.length (ports w) <= fuel ->
  Set_forEach fuel (broadcast_callback message) 0 w
  = broadcastToPopups message w.
Proof.
  intros H. rewrite broadcastToPopups_eq. unfold broadcast_world.
  rewrite <- (walked_start message w) at 1.
  change 0 with (List.length (@nil (option Port))).
  now rewrite Set_forEach_walked.
Qed.

(** ** Rules for invariants *)

Section Preserves.
Variable I : World -> Prop.

Lemma preserves_ret {A} (a : A) : preserves I (ret a).
Proof. intros w H; exact H. Qed.

Lemma preserves_throw {A} (e : JSError) : preserves I (@throw A e).
Proof. intros w H; exact H. Qed.

Lemma preserves_gets {A} (f : World -> A) : preserves I (gets f).
Proof. intros w H; exact H. Qed.

Lemma preserves_bind {A B} (m : M A) (k : A -> M B) :
  preserves I m -> (forall a, preserves I (k a)) -> preserves I (bind m k).
Proof.
  intros Hm Hk w Hw. unfold bind.
  specialize (Hm w Hw). destruct (m w) as [[a|e|] w']; simpl in *; auto.
  now apply Hk.
Qed.

Lemma preserves_try_catch {A} (body : M A) (handler : JSError -> M A) :
  preserves I body -> (forall e, preserves I (handler e)) ->
  preserves I (try_catch body handler).
Proof.
  intros Hb Hh w Hw. unfold try_catch.
  specialize (Hb w Hw). destruct (body w) as [[a|e|] w']; simpl in *; auto.
  now apply Hh.
Qed.

Lemma preserves_get_member (v : JSValue) (key : string) :
  preserves I (get_member v key).
Proof. intros w H; destruct v; exact H. Qed.

(** A walk over the Set keeps [I] when the callback does on the
    entries of the Set. *)
Lemma preserves_forEach (callbackfn : Port -> M unit) :
  (forall port w, I w -> Set_has port (ports w) = true ->
                  I (snd (callbackfn port w))) ->
  forall fuel index, preserves I (Set_forEach fuel callbackfn index).
Proof.
  intros Hcb fuel. induction fuel as [|fuel IH]; intros index w Hw; simpl.
  - destruct (nth_error (ports w) index); exact Hw.
  - destruct (nth_error (ports w) index) as [[port|]|] eqn:Hnth; simpl.
    + assert (Hin : Set_has port (ports w) = true).
      { apply existsb_exists. exists (Some port). split.
        - eapply nth_error_In; eauto.
        - apply Port_eqb_refl. }
      specialize (Hcb port w Hw Hin). unfold bind.
      destruct (callbackfn port w) as [[[]|e|] w']; simpl in *; auto.
      now apply IH.
    + now apply IH.
    + exact Hw.
Qed.
End Preserves.

Lemma preserves_exec {A} (I : World -> Prop) (m : M A) :
  preserves I m -> forall w, I w -> I (exec m w).
Proof. intros H w Hw. apply H, Hw. Qed.

Lemma run_invariant (I : World -> Prop) :
  (forall ev w, I w -> I (dispatch ev w)) ->
  forall evs w, I w -> I (run evs w).
Proof.
  intros Hstep evs. induction evs as [|ev evs IH]; intros w Hw; simpl; auto.
Qed.

Lemma run_invariant_on (allowed : Event -> bool) (I : World -> Prop) :
  (forall ev w, allowed ev = true -> I w -> I (dispatch ev w)) ->
  forall evs w, forallb allowed evs = true -> I w -> I (run evs w).
Proof.
  intros Hstep evs. induction evs as [|ev evs IH]; intros w Hevs Hw; simpl; auto.
  simpl in Hevs. apply andb_prop in Hevs as [Hev Hevs]. auto.
Qed.

(** A timer firing, for an invariant that does not look at the clock or
    at the timers. *)
Section Timers.
Variable I : World -> Prop.
Hypothesis I_timers : forall v w, I w -> I (set_timers v w).
Hypothesis I_now : forall v w, I w -> I (set_now v w).
Hypothesis I_callback : forall cb, preserves I (run_callback cb).

Lemma fire_timer_invariant (w : World) : I w -> I (fire_timer w).
Proof.
  intros Hw. unfold fire_timer.
  destruct (min_due (timers w)) as [d|]; [|exact Hw].
  destruct (take_due d (timers w)) as [[t rest]|]; [|exact Hw].
  apply I_callback. auto.
Qed.

Lemma elapse_invariant (d : Z) (w : World) : I w -> I (elapse d w).
Proof.
  intros Hw. unfold elapse. destruct (min_due (timers w)); auto.
Qed.
End Timers.

(** One turn of the event loop keeps [I] when every listener the turn
    may run does; [allowed] says which events are considered. *)
Section Dispatch.
Variable I : World -> Prop.
Variable allowed : Event -> bool.
Hypothesis I_sockets : forall v w, I w -> I (set_sockets v w).
Hypothesis I_broken : forall v w, I w -> I (set_broken v w).
Hypothesis I_tasks : forall v w, I w -> I (set_tasks v w).
Hypothesis I_onConnect :
  forall p, allowed (EvPortConnect p) = true -> preserves I (onConnect p).
Hypothesis I_onDisconnect : forall p, preserves I (port_onDisconnect p).
Hypothesis I_onMessage : forall message, preserves I (port_onMessage message).
Hypothesis I_onopen :
  forall s, allowed (EvWsOpen s) = true -> preserves I ws_onopen.
Hypothesis I_onclose :
  forall s, allowed (EvWsClose s) = true -> preserves I ws_onclose.
Hypothesis I_onerror : preserves I ws_onerror.
Hypothesis I_onmessage :
  forall s parsed, allowed (EvWsMessage s parsed) = true ->
                   preserves I (ws_onmessage parsed).
Hypothesis I_resume : forall a s, preserves I (executeTask_resume a s).
Hypothesis I_fire : forall w, I w -> I (fire_timer w).
Hypothesis I_elapse : forall d w, I w -> I (elapse d w).

Lemma dispatch_invariant (ev : Event) (w : World) :
  allowed ev = true -> I w -> I (dispatch ev w).
Proof.
  intros Hev Hw. destruct ev; simpl.
  - now apply I_onConnect.
  - now apply I_broken.
  - destruct (has_listeners p w); [apply I_onDisconnect|]; now apply I_broken.
  - destruct (has_listeners p w); [now apply I_onMessage|exact Hw].
  - destruct (has_socket s w); [|exact Hw].
    apply (I_onopen s Hev). now apply I_sockets.
  - destruct (has_socket s w); [|exact Hw].
    apply (I_onclose s Hev). now apply I_sockets.
  - destruct (has_socket s w); [now apply I_onerror|exact Hw].
  - destruct (has_socket s w); [now apply (I_onmessage s)|exact Hw].
  - unfold settle. destruct (lookup_task id w) as [a|]; [|exact Hw].
    pose proof (I_resume a s w Hw) as H.
    destruct (executeTask_resume a s w) as [[[a'|]|e|] w'];
      now apply I_tasks.
  - now apply I_fire.
  - now apply I_elapse.
Qed.
End Dispatch.


(** Breaks a listener down to its calls and assignments. *)
Ltac listener_shape :=
  repeat first
    [ apply preserves_ret
    | apply preserves_throw
    | apply preserves_gets
    | apply preserves_get_member
    | apply preserves_bind; [|intros ?]
    | apply preserves_try_catch; [|intros ?]
    | match goal with
      | |- preserves _ (match ?x with _ => _ end) => destruct x
      | |- preserves _ (if ?b then _ else _) => destruct b
      end ].

Ltac unfold_listeners :=
  unfold onConnect, port_onDisconnect, port_onMessage, executeTask,
    executeTask_resume, executeTask_catch, ws_onopen, ws_onclose, ws_onerror,
    ws_onmessage, handleWebSocketMessage, handleTaskUpdate,
    handleBrowserState, handleError, run_callback, connectWebSocket, ping,
    new_WebSocket, WebSocket_close, setTimeout, setInterval, setBadgeText,
    setBadgeBackgroundColor, fetch, suspend, console_log, console_error,
    postMessage.

(** ** The entries of the Set stay distinct *)

Lemma Set_has_live (p : Port) (s : JSSet) :
  Set_has p s = true <-> In p (live s).
Proof.
  unfold Set_has, live. induction s as [|[q|] s IH]; simpl.
  - split; [discriminate|tauto].
  - rewrite orb_true_iff, IH.
    destruct (Port_eqb_spec q p); intuition congruence.
  - exact IH.
Qed.

Lemma live_app (s t : JSSet) : live (s ++ t) = live s ++ live t.
Proof. unfold live. apply flat_map_app. Qed.

Lemma Set_add_uniq (p : Port) (s : JSSet) :
  NoDup (live s) -> NoDup (live (Set_add p s)).
Proof.
  intros H. unfold Set_add. destruct (Set_has p s) eqn:Hp; [exact H|].
  rewrite live_app; simpl.
  apply NoDup_app; [ exact H | repeat constructor; simpl; tauto | ].
  intros q Hq [<-|[]]. apply Set_has_live in Hq. congruence.
Qed.

Lemma live_Set_delete_incl (p : Port) (s : JSSet) :
  incl (live (Set_delete p s)) (live s).
Proof.
  induction s as [|[q|] s IH]; simpl.
  - apply incl_refl.
  - destruct (Port_eqb q p); simpl.
    + apply incl_tl, incl_refl.
    + apply incl_cons; [now left|]. now apply incl_tl.
  - exact IH.
Qed.

Lemma Set_delete_uniq (p : Port) (s : JSSet) :
  NoDup (live s) -> NoDup (live (Set_delete p s)).
Proof.
  induction s as [|[q|] s IH]; simpl; intros H; auto.
  inversion H as [|? ? Hq Hs]; subst.
  destruct (Port_eqb q p); simpl; [exact Hs|].
  constructor; [|now apply IH].
  intros Hin. apply Hq. now apply (live_Set_delete_incl p s).
Qed.

Lemma Set_delete_absent (p q : Port) (s : JSSet) :
  Set_has q s = false -> Set_has q (Set_delete p s) = false.
Proof.
  intros H. destruct (Set_has q (Set_delete p s)) eqn:E; [|reflexivity].
  apply Set_has_live in E. apply live_Set_delete_incl in E.
  apply Set_has_live in E. congruence.
Qed.

Lemma uniq_emit (e : Effect) : preserves uniq (emit e).
Proof. intros w H; exact H. Qed.

Lemma uniq_broadcast (message : JSValue) :
  preserves uniq (broadcastToPopups message).
Proof.
  intros w Hw. unfold broadcastToPopups.
  apply preserves_forEach; [|exact Hw].
  clear w Hw. intros port w Hw _.
  unfold broadcast_callback, postMessage.
  apply preserves_try_catch; [|intros ?|exact Hw]; listener_shape;
    try apply uniq_emit.
  intros w' Hw'; unfold uniq in *; simpl. now apply Set_delete_uniq.
Qed.

Ltac uniq_leaf :=
  first [ apply uniq_emit | apply uniq_broadcast
        | let w := fresh "w" in let H := fresh "H" in
          intros w H; unfold uniq in *; simpl;
          first [ exact H | now apply Set_add_uniq | now apply Set_delete_uniq ] ].

Ltac uniq_listener :=
  unfold_listeners; repeat (listener_shape; try uniq_leaf).

Lemma uniq_dispatch (ev : Event) (w : World) : uniq w -> uniq (dispatch ev w).
Proof.
  apply (dispatch_invariant uniq (fun _ => true));
    first [ reflexivity
          | solve [intros v w0 H; exact H]
          | solve [intros; uniq_listener]
          | idtac ].
  - apply fire_timer_invariant; try (intros v w0 H; exact H).
    intros cb; destruct cb; uniq_listener.
  - intros d w0 H. unfold elapse. destruct (min_due (timers w0)); exact H.
Qed.

Lemma uniq_startup : uniq startup.
Proof. constructor. Qed.

Lemma uniq_reachable (evs : list Event) : uniq (run evs startup).
Proof. apply run_invariant; [apply uniq_dispatch | apply uniq_startup]. Qed.

(** ** C1: a broadcast is sent to the Set, once each *)

Lemma posts_to_app (p : Port) (l1 l2 : list (Z * Effect)) :
  posts_to p (l1 ++ l2) = posts_to p l1 ++ posts_to p l2.
Proof.
  induction l1 as [|[t e] l1 IH]; simpl; [reflexivity|].
  destruct e; auto. destruct (Port_eqb port p); simpl; now rewrite IH.
Qed.

Lemma skipn_length_app {A} (l1 l2 : list A) :
  skipn (List.length l1) (l1 ++ l2) = l2.
Proof. induction l1; simpl; auto. Qed.

Lemma since_broadcast (message : JSValue) (w : World) :
  since w (exec (broadcastToPopups message) w)
  = flat_map (sent message w) (ports w).
Proof.
  unfold since, exec. rewrite broadcastToPopups_eq. simpl.
  apply skipn_length_app.
Qed.

Lemma ports_broadcast (message : JSValue) (w : World) :
  ports (exec (broadcastToPopups message) w) = map (kept w) (ports w).
Proof.
  unfold exec. rewrite broadcastToPopups_eq. simpl. apply app_nil_r.
Qed.

Lemma posts_to_sent_absent (message : JSValue) (w : World) (p : Port) (s : JSSet) :
  Set_has p s = false -> posts_to p (flat_map (sent message w) s) = [].
Proof.
  unfold Set_has. induction s as [|[q|] s IH]; simpl; intros H; auto.
  apply orb_false_elim in H as [Hq Hs].
  rewrite posts_to_app, IH, app_nil_r by exact Hs.
  destruct (is_broken q w); simpl; now rewrite Hq.
Qed.

Lemma posts_to_sent (message : JSValue) (w : World) (p : Port) (s : JSSet) :
  NoDup (live s) ->
  posts_to p (flat_map (sent message w) s)
  = if Set_has p s then [(message, negb (is_broken p w))] else [].
Proof.
  induction s as [|[q|] s IH]; simpl; intros H; auto.
  inversion H as [|? ? Hq Hs]; subst.
  rewrite posts_to_app. unfold Set_has in *; simpl.
  destruct (Port_eqb_spec q p) as [->|Hne]; simpl.
  - rewrite posts_to_sent_absent.
    + destruct (is_broken p w); simpl; now rewrite Port_eqb_refl.
    + destruct (Set_has p s) eqn:E; [|reflexivity].
      apply Set_has_live in E. contradiction.
  - rewrite IH by exact Hs.
    assert (Port_eqb q p = false) as E
        by (destruct (Port_eqb_spec q p); congruence).
    destruct (is_broken q w); simpl; now rewrite E.
Qed.


(** ** C2: a delivery that fails *)

Lemma absent_emit (p : Port) (base : list (Z * Effect)) (e : Effect) :
  targets p e = false -> preserves (absent p base) (emit e).
Proof.
  intros He w [Hp [extra [Hout Hposts]]]. split; [exact Hp|].
  exists (extra ++ [(now w, e)]). simpl. split.
  - rewrite Hout. now rewrite app_assoc.
  - rewrite posts_to_app, Hposts. simpl.
    destruct e; auto. simpl in He. now rewrite He.
Qed.

Lemma absent_env (p : Port) (base : list (Z * Effect)) (w w' : World) :
  ports w' = ports w -> out w' = out w -> absent p base w -> absent p base w'.
Proof. unfold absent. intros -> ->. auto. Qed.

Lemma absent_delete (p q : Port) (base : list (Z * Effect)) :
  preserves (absent p base)
            (modify (fun w => set_ports (Set_delete q (ports w)) w)).
Proof.
  intros w [Hp Hout]. split; [|exact Hout]. simpl. now apply Set_delete_absent.
Qed.

Lemma absent_add (p q : Port) (base : list (Z * Effect)) :
  Port_eqb q p = false ->
  preserves (absent p base)
            (modify (fun w => set_ports (Set_add q (ports w)) w)).
Proof.
  intros Hq w [Hp Hout]. split; [|exact Hout]. simpl.
  unfold Set_add. destruct (Set_has q (ports w)); [exact Hp|].
  unfold Set_has in *. rewrite existsb_app, Hp. simpl. now rewrite Hq.
Qed.

Lemma absent_broadcast (p : Port) (base : list (Z * Effect)) (message : JSValue) :
  preserves (absent p base) (broadcastToPopups message).
Proof.
  intros w Hw. unfold broadcastToPopups.
  apply preserves_forEach; [|exact Hw].
  clear w Hw. intros port w Hw Hport.
  assert (Hne : Port_eqb port p = false).
  { destruct (Port_eqb_spec port p) as [->|]; [|reflexivity].
    destruct Hw as [Hp _]. congruence. }
  unfold broadcast_callback, postMessage, console_error.
  apply preserves_try_catch; [|intros ?|exact Hw]; listener_shape;
    first [ apply absent_emit; simpl; first [exact Hne|reflexivity]
          | apply absent_delete ].
Qed.

Ltac absent_leaf :=
  first [ apply absent_emit; reflexivity
        | apply absent_broadcast
        | apply absent_delete
        | let w := fresh "w" in let H := fresh "H" in
          intros w H; revert H; apply absent_env; reflexivity ].

Ltac absent_listener :=
  unfold_listeners; repeat (listener_shape; try absent_leaf).

Lemma absent_onConnect (p q : Port) (base : list (Z * Effect)) :
  q <> p -> preserves (absent p base) (onConnect q).
Proof.
  intros Hqp.
  assert (Hne : Port_eqb q p = false)
    by (destruct (Port_eqb_spec q p); congruence).
  unfold onConnect, postMessage.
  repeat (listener_shape;
          try first [ apply absent_add; exact Hne
                    | apply absent_emit; exact Hne
                    | absent_leaf ]).
Qed.

Lemma absent_dispatch (p : Port) (base : list (Z * Effect)) (ev : Event) (w : World) :
  negb (connects p ev) = true -> absent p base w -> absent p base (dispatch ev w).
Proof.
  apply (dispatch_invariant (absent p base) (fun ev => negb (connects p ev)));
    first [ solve [intros v w0; apply absent_env; reflexivity]
          | solve [intros; absent_listener]
          | idtac ].
  - intros q Hq. apply absent_onConnect. intros ->.
    simpl in Hq. now rewrite Port_eqb_refl in Hq.
  - apply fire_timer_invariant;
      try (intros v w0; apply absent_env; reflexivity).
    intros cb; destruct cb; absent_listener.
  - intros d w0. apply elapse_invariant.
    intros v w1; apply absent_env; reflexivity.
Qed.

Lemma absent_run (p : Port) (base : list (Z * Effect)) (evs : list Event) :
  forallb (fun ev => negb (connects p ev)) evs = true ->
  forall w, absent p base w -> absent p base (run evs w).
Proof.
  intros Hevs w. apply run_invariant_on with (2 := Hevs).
  intros ev w0. apply absent_dispatch.
Qed.

Lemma Set_has_kept (w : World) (p : Port) (s : JSSet) :
  Set_has p (map (kept w) s) = Set_has p s && negb (is_broken p w).
Proof.
  unfold Set_has. induction s as [|[q|] s IH]; simpl; auto.
  rewrite IH. destruct (Port_eqb_spec q p) as [->|Hne]; simpl.
  - destruct (is_broken p w); simpl; [|now rewrite Port_eqb_refl].
    destruct (existsb (is_entry p) s); reflexivity.
  - destruct (is_broken q w); simpl; [reflexivity|].
    destruct (Port_eqb_spec q p); [congruence|reflexivity].
Qed.

(** C2.  A broadcast never aborts.  A port of the Set whose delivery
    fails is out of the Set afterwards, and no [postMessage] is made on
    it in any later run of events, broadcasts included (short of the
    same port connecting anew); every port of the Set whose channel
    takes the message is handed [e] once and stays in the Set. *)
Theorem failed_delivery_unregisters (evs : list Event) (e : JSValue) :
  let w := run evs startup in
  let w' := exec (broadcastToPopups e) w in
  fst (broadcastToPopups e w) = Normal tt /\
  (forall p, Set_has p (ports w) = true -> is_broken p w = true ->
             posts_to p (since w w') = [(e, false)] /\
             Set_has p (ports w') = false /\
             forall evs',
               forallb (fun ev => negb (connects p ev)) evs' = true ->
               posts_to p (since w' (run evs' w')) = []) /\
  (forall q, Set_has q (ports w) = true -> is_broken q w = false ->
             posts_to q (since w w') = [(e, true)] /\
             Set_has q (ports w') = true).
Proof.
  intros w w'. split; [now rewrite broadcastToPopups_eq|].
  assert (Hposts : forall p,
             posts_to p (since w w')
             = if Set_has p (ports w) then [(e, negb (is_broken p w))] else []).
  { intros p. unfold w'. rewrite since_broadcast.
    apply posts_to_sent. apply uniq_reachable. }
  assert (Hports : forall p, Set_has p (ports w')
                             = Set_has p (ports w) && negb (is_broken p w)).
  { intros p. unfold w'. rewrite ports_broadcast. apply Set_has_kept. }
  split.
  - intros p Hreg Hbr. rewrite Hposts, Hports, Hreg, Hbr. simpl.
    repeat split. intros evs' Hevs'.
    destruct (absent_run p (out w') evs' Hevs' w') as [_ [extra [Hout Hnone]]].
    + split; [rewrite Hports, Hreg, Hbr; reflexivity|].
      exists []. now rewrite app_nil_r.
    + unfold since. rewrite Hout, skipn_length_app. exact Hnone.
  - intros q Hreg Hlive. rewrite Hposts, Hports, Hreg, Hlive. auto.
Qed.

Lemma failed_delivery_unregisters_witness :
  let p1 := {| port_id := 1; port_name := "popup" |} in
  let p2 := {| port_id := 2; port_name := "popup" |} in
  let w := run [EvPortConnect p1; EvPortConnect p2; EvPortBreak p1] startup in
  let w' := exec (broadcastToPopups (JStr "e")) w in
  (posts_to p1 (since w w') = [(JStr "e", false)] /\
   Set_has p1 (ports w') = false /\
   posts_to p1 (since w' (run [EvWsOpen 0; EvWsError 0] w')) = []) /\
  (posts_to p2 (since w w') = [(JStr "e", true)] /\
   Set_has p2 (ports w') = true).
Proof.
  intros p1 p2 w w'.
  destruct (failed_delivery_unregisters
              [EvPortConnect p1; EvPortConnect p2; EvPortBreak p1] (JStr "e"))
    as [_ [Hfail Hlive]].
  split.
  - destruct (Hfail p1 eq_refl eq_refl) as [H1 [H2 H3]].
    split; [exact H1 | split; [exact H2 |]].
    apply H3. reflexivity.
  - exact (Hlive p2 eq_refl eq_refl).
Defined.

(** ** C3 and C10: reconnection *)

Lemma reconnect_delays_app (l1 l2 : list (Z * Effect)) :
  reconnect_delays (l1 ++ l2) = reconnect_delays l1 ++ reconnect_delays l2.
Proof. apply flat_map_app. Qed.

Lemma closes_app (l1 l2 : list (Z * Effect)) :
  closes (l1 ++ l2) = closes l1 + closes l2.
Proof. unfold closes. now rewrite filter_app, length_app. Qed.

Lemma quiet_emit n ds c base (e : Effect) :
  reconnect_delay e = [] -> is_close_log e = false ->
  preserves (quiet n ds c base) (emit e).
Proof.
  intros Hd Hc w [Hn [extra [Hout [Hds Hcl]]]]. split; [exact Hn|].
  exists (extra ++ [(now w, e)]). simpl. repeat split.
  - rewrite Hout. now rewrite app_assoc.
  - rewrite reconnect_delays_app, Hds. simpl. rewrite Hd. now rewrite !app_nil_r.
  - rewrite closes_app, Hcl. unfold closes; simpl. rewrite Hc. simpl. lia.
Qed.

Lemma quiet_env n ds c base (w w' : World) :
  reconnectAttempts w' = reconnectAttempts w -> out w' = out w ->
  quiet n ds c base w -> quiet n ds c base w'.
Proof. unfold quiet. intros -> ->. auto. Qed.

Ltac quiet_modify :=
  let w := fresh "w" in let H := fresh "H" in
  intros w H; revert H; apply quiet_env; reflexivity.

Lemma quiet_broadcast n ds c base (message : JSValue) :
  preserves (quiet n ds c base) (broadcastToPopups message).
Proof.
  intros w Hw. unfold broadcastToPopups.
  apply preserves_forEach; [|exact Hw].
  clear w Hw. intros port w Hw _.
  unfold broadcast_callback, postMessage, console_error.
  apply preserves_try_catch; [|intros ?|exact Hw]; listener_shape;
    first [ apply quiet_emit; reflexivity | quiet_modify ].
Qed.

Ltac quiet_leaf :=
  first [ apply quiet_emit; reflexivity | apply quiet_broadcast | quiet_modify ].

Ltac quiet_listener :=
  unfold_listeners; repeat (listener_shape; try quiet_leaf).

(** No listener but [ws.onopen] and [ws.onclose] touches the counter,
    schedules a reconnection or logs a close. *)
Lemma quiet_dispatch n ds c base (ev : Event) (w : World) :
  is_open_event ev = false -> is_close_event ev = false ->
  quiet n ds c base w -> quiet n ds c base (dispatch ev w).
Proof.
  intros Hopen Hclose.
  apply (dispatch_invariant (quiet n ds c base)
           (fun ev => negb (is_open_event ev) && negb (is_close_event ev)));
    first [ solve [intros v w0; apply quiet_env; reflexivity]
          | solve [intros s H; discriminate H]
          | solve [intros; quiet_listener]
          | idtac ].
  - apply fire_timer_invariant;
      try (intros v w0; apply quiet_env; reflexivity).
    intros cb; destruct cb; quiet_listener.
  - intros d w0. apply elapse_invariant.
    intros v w1; apply quiet_env; reflexivity.
  - now rewrite Hopen, Hclose.
Qed.

Lemma exec_bind {A B} (m : M A) (k : A -> M B) (w : World) (a : A) :
  fst (m w) = Normal a -> exec (bind m k) w = exec (k a) (exec m w).
Proof.
  unfold exec, bind. destruct (m w) as [r w']; simpl. now intros ->.
Qed.

(** One run of [ws.onclose]: below the ceiling the counter goes up by
    one and a reconnection is scheduled after that many delays; at the
    ceiling nothing is scheduled. *)
Lemma quiet_onclose n ds c base (w : World) :
  quiet n ds c base w ->
  quiet (if Nat.ltb n MAX_RECONNECT_ATTEMPTS then n + 1 else n)
        (ds ++ if Nat.ltb n MAX_RECONNECT_ATTEMPTS
               then [(RECONNECT_DELAY * Z.of_nat (n + 1))%Z] else [])
        (S c) base (exec ws_onclose w).
Proof.
  intros Hw. unfold ws_onclose.
  rewrite (exec_bind _ _ _ tt) by reflexivity.
  assert (H1 : quiet n ds (S c) base
                     (exec (console_log "WebSocket connection closed") w)).
  { destruct Hw as [Hn [extra [Hout [Hds Hc]]]]. split; [exact Hn|].
    exists (extra ++ [(now w, ConsoleLog "WebSocket connection closed")]).
    simpl. repeat split.
    - rewrite Hout. now rewrite app_assoc.
    - rewrite reconnect_delays_app, Hds. simpl. now rewrite app_nil_r.
    - rewrite closes_app, Hc. unfold closes; simpl. lia. }
  revert H1. generalize (exec (console_log "WebSocket connection closed") w).
  clear w Hw. intros w Hw.
  rewrite (exec_bind _ _ _ tt) by (now rewrite broadcastToPopups_eq).
  apply (quiet_broadcast _ _ _ _ (connection_status "disconnected")) in Hw.
  revert Hw.
  change (snd (broadcastToPopups (connection_status "disconnected") w))
    with (exec (broadcastToPopups (connection_status "disconnected")) w).
  generalize (exec (broadcastToPopups (connection_status "disconnected")) w).
  clear w. intros w [Hn [extra [Hout [Hds Hc]]]].
  unfold exec, bind, gets. simpl. rewrite Hn.
  destruct (Nat.ltb n MAX_RECONNECT_ATTEMPTS); simpl.
  - split; [reflexivity|].
    exists (extra ++ [(now w, SetTimeout CbConnectWebSocket
                                (RECONNECT_DELAY * Z.of_nat (n + 1))%Z)]).
    repeat split.
    + rewrite Hout. now rewrite app_assoc.
    + rewrite reconnect_delays_app, Hds. reflexivity.
    + rewrite closes_app, Hc. unfold closes; simpl. lia.
  - split; [exact Hn|]. exists extra. rewrite app_nil_r. auto.
Qed.

Lemma backed_off_dispatch (base : list (Z * Effect)) (ev : Event) (w : World) :
  negb (is_open_event ev) = true ->
  backed_off base w -> backed_off base (dispatch ev w).
Proof.
  intros Hopen [c Hw]. apply negb_true_iff in Hopen.
  destruct (is_close_event ev) eqn:Hclose.
  - destruct ev; try discriminate. simpl.
    destruct (has_socket s w); [|now exists c].
    assert (H : quiet (Nat.min MAX_RECONNECT_ATTEMPTS c)
                      (map backoff (seq 1 (Nat.min MAX_RECONNECT_ATTEMPTS c)))
                      c base (set_readyState s CLOSED w))
      by (revert Hw; apply quiet_env; reflexivity).
    apply quiet_onclose in H. exists (S c).
    unfold MAX_RECONNECT_ATTEMPTS in *.
    destruct (Nat.ltb_spec (Nat.min 5 c) 5) as [Hlt|Hge].
    + replace (Nat.min 5 c) with c in H by lia.
      replace (Nat.min 5 (S c)) with (S c) by lia.
      replace (c + 1) with (S c) in H by lia.
      rewrite seq_S, map_app. exact H.
    + replace (Nat.min 5 (S c)) with (Nat.min 5 c) by lia.
      rewrite app_nil_r in H. exact H.
  - exists c. now apply quiet_dispatch.
Qed.

(** C3.  From a world whose counter is zero, through any events none of
    which is the opening of a socket: the reconnections scheduled are,
    in order, after 1, 2, 3, 4, 5 times [RECONNECT_DELAY], one for each
    close up to the fifth, and none for any close after the fifth (the
    counter stays at the ceiling); calls of [connectWebSocket] among the
    events change nothing to that. *)
Theorem reconnect_backoff (evs : list Event) (w : World) :
  reconnectAttempts w = 0 ->
  forallb (fun ev => negb (is_open_event ev)) evs = true ->
  let w' := run evs w in
  let n := Nat.min MAX_RECONNECT_ATTEMPTS (closes (since w w')) in
  reconnect_delays (since w w') = map backoff (seq 1 n) /\
  reconnectAttempts w' = n.
Proof.
  intros H0 Hevs w' n.
  assert (H : backed_off (out w) w').
  { apply (run_invariant_on _ _ (backed_off_dispatch (out w)) evs w Hevs).
    exists 0. split; [exact H0|]. exists []. now rewrite app_nil_r. }
  destruct H as [c [Hn [extra [Hout [Hds Hc]]]]].
  unfold n, since. rewrite Hout, skipn_length_app, Hc. auto.
Qed.

Lemma reconnect_backoff_witness :
  let evs := [EvWsClose 0; EvTimer; EvWsError 1; EvWsClose 1; EvTimer;
              EvWsClose 2; EvTimer; EvWsClose 3; EvTimer; EvWsClose 4;
              EvTimer; EvWsClose 5; EvTimer; EvWsClose 5; EvElapse 60000] in
  reconnect_delays (since startup (run evs startup))
  = [1000; 2000; 3000; 4000; 5000]%Z /\
  reconnectAttempts (run evs startup) = 5.
Proof.
  intros evs.
  generalize (reconnect_backoff evs startup eq_refl eq_refl).
  vm_compute. exact (fun H => H).
Defined.

Lemma quiet_here (w : World) : quiet (reconnectAttempts w) [] 0 (out w) w.
Proof. split; [reflexivity|]. exists []. now rewrite app_nil_r. Qed.

Lemma quiet_connectWebSocket n ds c base :
  preserves (quiet n ds c base) connectWebSocket.
Proof.
  quiet_listener.
Qed.

Lemma at_ceiling_dispatch n base (ev : Event) (w : World) :
  MAX_RECONNECT_ATTEMPTS <= n ->
  negb (is_open_event ev) = true ->
  at_ceiling n base w -> at_ceiling n base (dispatch ev w).
Proof.
  intros Hn Hopen [c Hw]. apply negb_true_iff in Hopen.
  destruct (is_close_event ev) eqn:Hclose.
  - destruct ev; try discriminate. simpl.
    destruct (has_socket s w); [|now exists c].
    assert (H : quiet n [] c base (set_readyState s CLOSED w))
      by (revert Hw; apply quiet_env; reflexivity).
    apply quiet_onclose in H. exists (S c).
    destruct (Nat.ltb_spec n MAX_RECONNECT_ATTEMPTS); [lia|exact H].
  - exists c. now apply quiet_dispatch.
Qed.

(** C10.  [connectWebSocket] leaves the counter as it is; no event but
    the opening of a socket ever lowers it, and an opening puts it to
    zero.  So from a world whose counter is at the ceiling, a call of
    [connectWebSocket] followed by any events without an opening (the
    close of the new socket among them) schedules no reconnection and
    leaves the counter at the ceiling. *)
Theorem counter_reset_only_on_open :
  (forall w, reconnectAttempts (exec connectWebSocket w) = reconnectAttempts w) /\
  (forall ev w, is_open_event ev = false ->
                reconnectAttempts w <= reconnectAttempts (dispatch ev w)) /\
  (forall s w, has_socket s w = true ->
               reconnectAttempts (dispatch (EvWsOpen s) w) = 0) /\
  (forall w evs,
      MAX_RECONNECT_ATTEMPTS <= reconnectAttempts w ->
      forallb (fun ev => negb (is_open_event ev)) evs = true ->
      let w' := run evs (exec connectWebSocket w) in
      reconnect_delays (since w w') = [] /\
      reconnectAttempts w' = reconnectAttempts w).
Proof.
  split; [|split; [|split]].
  - intros w. apply (quiet_connectWebSocket _ _ _ _ w (quiet_here w)).
  - intros ev w Hopen. destruct (is_close_event ev) eqn:Hclose.
    + destruct ev; try discriminate. simpl.
      destruct (has_socket s w); [|lia].
      assert (H : quiet (reconnectAttempts w) [] 0 (out w)
                        (set_readyState s CLOSED w))
        by (generalize (quiet_here w); apply quiet_env; reflexivity).
      apply quiet_onclose in H. destruct H as [-> _].
      destruct (Nat.ltb (reconnectAttempts w) MAX_RECONNECT_ATTEMPTS); lia.
    + destruct (quiet_dispatch _ _ _ _ ev w Hopen Hclose (quiet_here w))
        as [-> _]. lia.
  - intros s w Hs. simpl. rewrite Hs. unfold ws_onopen.
    rewrite (exec_bind _ _ _ tt) by reflexivity.
    rewrite (exec_bind _ _ _ tt) by reflexivity.
    unfold exec. rewrite broadcastToPopups_eq. reflexivity.
  - intros w evs Hn Hevs w'.
    assert (H : at_ceiling (reconnectAttempts w) (out w) w').
    { apply (run_invariant_on _ _
               (fun ev w0 => at_ceiling_dispatch _ (out w) ev w0 Hn) evs _ Hevs).
      exists 0. apply quiet_connectWebSocket, quiet_here. }
    destruct H as [c [Hcount [extra [Hout [Hds _]]]]].
    unfold since. rewrite Hout, skipn_length_app. auto.
Qed.

Lemma counter_reset_only_on_open_witness :
  let w := run [EvWsClose 0; EvTimer; EvWsClose 1; EvTimer; EvWsClose 2;
                EvTimer; EvWsClose 3; EvTimer; EvWsClose 4; EvTimer;
                EvWsClose 5] startup in
  let evs := [EvWsError 6; EvWsClose 6; EvElapse 60000; EvTimer] in
  reconnectAttempts w = 5 /\
  reconnectAttempts w <= reconnectAttempts (dispatch (EvWsClose 5) w) /\
  reconnectAttempts (dispatch (EvWsOpen 5) w) = 0 /\
  reconnect_delays (since w (run evs (exec connectWebSocket w))) = [] /\
  reconnectAttempts (run evs (exec connectWebSocket w)) = 5.
Proof.
  intros w evs.
  destruct counter_reset_only_on_open as [_ [Hmono [Hopen Hmanual]]].
  split; [reflexivity|].
  split; [exact (Hmono (EvWsClose 5) w eq_refl)|].
  split; [exact (Hopen 5 w eq_refl)|].
  generalize (Hmanual w evs (le_n 5) eq_refl). vm_compute. exact (fun H => H).
Defined.

(** ** C4 and C5: submitting a task *)

Lemma fetches_sent (message : JSValue) (w : World) (s : JSSet) :
  fetches (flat_map (sent message w) s) = [].
Proof.
  unfold fetches. induction s as [|[q|] s IH]; simpl; auto.
  rewrite flat_map_app. fold (fetches (flat_map (sent message w) s)).
  unfold fetches in *. rewrite IH.
  destruct (is_broken q w); reflexivity.
Qed.

(** The [catch] block: one line on the console, one broadcast. *)
Lemma executeTask_catch_eq (error : JSError) (w : World) :
  executeTask_catch error w
  = (Normal tt,
     exec (broadcastToPopups (failure_report (error_message error)))
          (exec (console_error "Error executing task:" (error_value error)) w)).
Proof.
  unfold executeTask_catch, bind, exec. simpl.
  rewrite !broadcastToPopups_eq. reflexivity.
Qed.

Lemma since_catch (error : JSError) (w : World) :
  since w (exec (executeTask_catch error) w)
  = (now w, ConsoleError "Error executing task:" (error_value error))
      :: flat_map (sent (failure_report (error_message error)) w) (ports w).
Proof.
  unfold since, exec. rewrite executeTask_catch_eq. unfold exec.
  rewrite broadcastToPopups_eq. simpl.
  rewrite <- app_assoc. rewrite skipn_length_app. reflexivity.
Qed.


(** Create answered with success: on to reading the body, no call made. *)
Lemma resume_created (w : World) :
  executeTask_resume AwaitCreate (Response true) w = (Normal (Some AwaitJson), w).
Proof. reflexivity. Qed.

(** The body read: the execute request for its [task_id], nothing else. *)
Lemma resume_body (fields : list (string * JSValue)) (w : World) :
  let taskData := JObj fields in
  fst (executeTask_resume AwaitJson (Json taskData) w)
  = Normal (Some (AwaitExecute taskData)) /\
  since w (exec (executeTask_resume AwaitJson (Json taskData)) w)
  = [(now w, Fetch (execute_url (lookup "task_id" fields)) "POST" None)].
Proof.
  split; [reflexivity|].
  unfold since, exec, executeTask_resume, try_catch, bind; simpl.
  apply skipn_length_app.
Qed.






(** ** C6: the router *)

Lemma side_only_emit s base (e : Effect) :
  is_post e = false -> preserves (side_only s base) (emit e).
Proof.
  intros He w [Hs [side [Hout Hside]]]. split; [exact Hs|].
  exists (side ++ [(now w, e)]). simpl. split.
  - rewrite Hout. now rewrite app_assoc.
  - apply Forall_app. split; [exact Hside|]. now repeat constructor.
Qed.

Lemma side_only_env s base (w w' : World) :
  ports w' = ports w -> out w' = out w ->
  side_only s base w -> side_only s base w'.
Proof. unfold side_only. intros -> ->. auto. Qed.

Ltac side_only_leaf :=
  first [ apply side_only_emit; reflexivity
        | let w := fresh "w" in let H := fresh "H" in
          intros w H; revert H; apply side_only_env; reflexivity ].

Lemma side_only_route s base (message : JSValue) :
  preserves (side_only s base) (route message).
Proof.
  unfold route. unfold_listeners.
  repeat (listener_shape; try side_only_leaf).
Qed.

Lemma handleWebSocketMessage_route (message : JSValue) (w : World) :
  handleWebSocketMessage message w
  = route message (exec (broadcastToPopups message) w).
Proof.
  unfold handleWebSocketMessage, bind at 1, exec.
  rewrite broadcastToPopups_eq. reflexivity.
Qed.

(** C6.  For every value handed to [handleWebSocketMessage]: the calls
    it makes are those of the broadcast of that value, and after them
    calls that are no [postMessage] (the badge, the storage, the
    notification, the timer), made on the Set as the broadcast left it.
    For every object whose [type] is none of task_update, browser_state,
    error: the function returns normally and the world is the one the
    broadcast of that same object leaves, nothing more; so does
    [ws.onmessage] on such a frame. *)
Theorem router_broadcasts_first
  (message : JSValue) (fields : list (string * JSValue)) (w : World) :
  (let wb := exec (broadcastToPopups message) w in
   let w' := exec (handleWebSocketMessage message) w in
   exists side, since w w' = since w wb ++ side /\
                Forall (fun c => is_post (snd c) = false) side /\
                ports w' = ports wb) /\
  (recognized (lookup "type" fields) = false ->
   handleWebSocketMessage (JObj fields) w
   = (Normal tt, exec (broadcastToPopups (JObj fields)) w) /\
   ws_onmessage (inr (JObj fields)) w
   = (Normal tt, exec (broadcastToPopups (JObj fields)) w)).
Proof.
  split.
  - intros wb w'.
    assert (Hw' : w' = exec (route message) wb)
      by (unfold w', exec at 1; now rewrite handleWebSocketMessage_route).
    destruct (side_only_route (ports wb) (out wb) message wb)
      as [Hports [side [Hout Hside]]].
    { split; [reflexivity|]. exists []. rewrite app_nil_r. auto. }
    fold (exec (route message) wb) in Hports, Hout. rewrite <- Hw' in *.
    exists side. split; [|auto].
    unfold since. rewrite Hout. unfold wb, exec.
    rewrite broadcastToPopups_eq. simpl.
    rewrite <- app_assoc. now rewrite !skipn_length_app.
  - intros Hrec. unfold recognized in Hrec.
    apply orb_false_elim in Hrec as [Hrec Herr].
    apply orb_false_elim in Hrec as [Hupd Hstate].
    assert (H : handleWebSocketMessage (JObj fields) w
                = (Normal tt, exec (broadcastToPopups (JObj fields)) w)).
    { rewrite handleWebSocketMessage_route. unfold route, bind; simpl.
      now rewrite Hupd, Hstate, Herr. }
    split; [exact H|].
    unfold ws_onmessage, try_catch. now rewrite H.
Qed.

Lemma router_broadcasts_first_witness :
  let frame := [("type", JStr "unknown_future_type"); ("x", JNum 1)] in
  let p1 := {| port_id := 1; port_name := "popup" |} in
  let w := run [EvPortConnect p1] startup in
  handleWebSocketMessage (JObj frame) w
  = (Normal tt, exec (broadcastToPopups (JObj frame)) w) /\
  since w (exec (handleWebSocketMessage (JObj frame)) w)
  = [(0%Z, PostMessage p1 (JObj frame) true)].
Proof.
  intros frame p1 w.
  destruct (router_broadcasts_first (JObj frame) frame w) as [_ H].
  destruct (H eq_refl) as [H1 _].
  split; [exact H1|].
  unfold exec at 1. rewrite H1. reflexivity.
Defined.

(** ** C7: the alert for an error frame *)

Lemma alerts_app (l1 l2 : list (Z * Effect)) :
  alerts (l1 ++ l2) = alerts l1 ++ alerts l2.
Proof. apply flat_map_app. Qed.

Lemma alerts_sent (message : JSValue) (w : World) (s : JSSet) :
  alerts (flat_map (sent message w) s) = [].
Proof.
  induction s as [|[q|] s IH]; simpl; auto.
  rewrite alerts_app, IH. destruct (is_broken q w); reflexivity.
Qed.

(** An error frame makes one notification; its body is the [error]
    property of the frame. *)
Lemma error_frame_alert (fields : list (string * JSValue)) (w : World) :
  strict_eq_str (lookup "type" fields) "error" = true ->
  alerts (since w (exec (handleWebSocketMessage (JObj fields)) w))
  = [lookup "error" fields].
Proof.
  intros Htype.
  assert (Hupd : strict_eq_str (lookup "type" fields) "task_update" = false).
  { destruct (lookup "type" fields); try discriminate. simpl in *.
    apply String.eqb_eq in Htype. now subst. }
  assert (Hstate : strict_eq_str (lookup "type" fields) "browser_state" = false).
  { destruct (lookup "type" fields); try discriminate. simpl in *.
    apply String.eqb_eq in Htype. now subst. }
  unfold since, exec at 1. rewrite handleWebSocketMessage_route.
  unfold route, bind; simpl. rewrite Hupd, Hstate, Htype.
  unfold exec. rewrite broadcastToPopups_eq. simpl.
  rewrite <- !app_assoc. rewrite skipn_length_app.
  rewrite alerts_app, alerts_sent. reflexivity.
Qed.

(** C7, at the two shapes of an error frame.  With the text under
    [error] the notification carries it.  With the text under [message],
    the shape of the error events this script builds itself (lines 37
    and 171-174), [handleError] still reads [message.error]: the body of
    the notification is [undefined]. *)
Theorem error_alert_reads_error_only (text : string) (w : World) :
  alerts (since w (exec (handleWebSocketMessage
                           (JObj [("type", JStr "error"); ("error", JStr text)])) w))
  = [JStr text] /\
  alerts (since w (exec (handleWebSocketMessage
                           (JObj [("type", JStr "error"); ("message", JStr text)])) w))
  = [JUndefined] /\
  alerts (since w (exec (ws_onmessage
                           (inr (JObj [("type", JStr "error");
                                       ("message", JStr text)]))) w))
  = [JUndefined].
Proof.
  split; [|split].
  - now rewrite error_frame_alert.
  - now rewrite error_frame_alert.
  - assert (H : exec (ws_onmessage
                        (inr (JObj [("type", JStr "error");
                                    ("message", JStr text)]))) w
                = exec (handleWebSocketMessage
                          (JObj [("type", JStr "error");
                                 ("message", JStr text)])) w).
    { unfold exec, ws_onmessage, try_catch.
      rewrite handleWebSocketMessage_route. reflexivity. }
    rewrite H. now rewrite error_frame_alert.
Qed.

(** ** C8: the badge *)

Lemma min_due_le (l : list Timer) (d : Z) (t : Timer) :
  min_due l = Some d -> In t l -> (d <= due t)%Z.
Proof.
  revert d. induction l as [|u l IH]; simpl; intros d Hd Hin; [tauto|].
  destruct (min_due l) as [m|] eqn:Hm.
  - injection Hd as <-. destruct Hin as [->|Hin]; [lia|].
    specialize (IH m eq_refl Hin). lia.
  - injection Hd as <-. destruct Hin as [->|Hin]; [lia|].
    destruct l; [destruct Hin|]. simpl in Hm.
    destruct (min_due l); discriminate.
Qed.

Lemma min_due_none (l : list Timer) : min_due l = None -> l = [].
Proof.
  destruct l as [|u l]; simpl; [reflexivity|].
  destruct (min_due l); discriminate.
Qed.

Lemma take_due_spec (d : Z) (l : list Timer) (t : Timer) (rest : list Timer) :
  take_due d l = Some (t, rest) ->
  due t = d /\ forall x, In x l <-> x = t \/ In x rest.
Proof.
  revert rest. induction l as [|u l IH]; simpl; intros rest H; [discriminate|].
  destruct (Z.eqb_spec (due u) d) as [Hd|Hd].
  - injection H as <- <-. split; [exact Hd|]. intros x. intuition congruence.
  - destruct (take_due d l) as [[v rest']|]; [|discriminate].
    injection H as <- <-. destruct (IH rest' eq_refl) as [Hv Hin].
    split; [exact Hv|]. intros x. simpl. rewrite Hin. tauto.
Qed.

Lemma clearing_emit T base (e : Effect) : preserves (clearing T base) (emit e).
Proof.
  intros w [extra [Hout H]].
  exists (extra ++ [(now w, e)]). simpl. split.
  - rewrite Hout. now rewrite app_assoc.
  - destruct H as [H|H]; [left; exact H|right].
    apply in_or_app. now left.
Qed.

Lemma clearing_env T base (w w' : World) :
  (forall t, In t (timers w) -> In t (timers w')) ->
  now w' = now w -> out w' = out w ->
  clearing T base w -> clearing T base w'.
Proof.
  intros Ht Hnow Hout [extra [Hbase H]].
  exists extra. rewrite Hout, Hnow. split; [exact Hbase|].
  destruct H as [[Hin Hle]|H]; [left|right]; auto.
Qed.

Ltac clearing_modify :=
  let w := fresh "w" in let H := fresh "H" in
  intros w H; revert H; apply clearing_env;
  [ let t := fresh "t" in let Ht := fresh "Ht" in
    intros t Ht; simpl;
    first [ exact Ht | apply in_or_app; left; exact Ht ]
  | reflexivity | reflexivity ].

Lemma clearing_broadcast T base (message : JSValue) :
  preserves (clearing T base) (broadcastToPopups message).
Proof.
  intros w Hw. unfold broadcastToPopups.
  apply preserves_forEach; [|exact Hw].
  clear w Hw. intros port w Hw _.
  unfold broadcast_callback, postMessage, console_error.
  apply preserves_try_catch; [|intros ?|exact Hw]; listener_shape;
    first [ apply clearing_emit | clearing_modify ].
Qed.

Ltac clearing_leaf :=
  first [ apply clearing_emit | apply clearing_broadcast | clearing_modify ].

Ltac clearing_listener :=
  unfold_listeners; repeat (listener_shape; try clearing_leaf).

Lemma clearing_run_callback T base (cb : Callback) :
  preserves (clearing T base) (run_callback cb).
Proof.
  destruct cb; clearing_listener.
Qed.

(** The next timer fires: if it is [T], the badge is cleared at the due
    time of [T]; if not, [T] stays armed and the clock has not passed
    it. *)
Lemma clearing_fire T base (w : World) :
  callback T = CbClearBadge ->
  clearing T base w -> clearing T base (fire_timer w).
Proof.
  intros HT Hw. unfold fire_timer.
  destruct (min_due (timers w)) as [d|] eqn:Hmin; [|exact Hw].
  destruct (take_due d (timers w)) as [[t rest]|] eqn:Htake; [|exact Hw].
  destruct (take_due_spec _ _ _ _ Htake) as [Hd Hsplit].
  destruct Hw as [extra [Hout [[Hin Hle]|Hdone]]].
  - pose proof (min_due_le _ _ _ Hmin Hin) as Hmin_le.
    apply Hsplit in Hin. destruct Hin as [->|Hrest].
    + rewrite HT. unfold exec, run_callback, setBadgeText, bind, emit, modify.
      simpl.
      exists (extra ++ [(Z.max (now w) d, SetBadgeText "")]).
      split; [rewrite Hout; now rewrite app_assoc|].
      right. apply in_or_app. right. left.
      f_equal. lia.
    + apply clearing_run_callback.
      exists extra. simpl. split; [exact Hout|]. left. split.
      * apply in_or_app. now left.
      * lia.
  - apply clearing_run_callback.
    exists extra. simpl. split; [exact Hout|]. now right.
Qed.

Lemma clearing_elapse T base (d : Z) (w : World) :
  clearing T base w -> clearing T base (elapse d w).
Proof.
  intros [extra [Hout H]]. unfold elapse.
  destruct (min_due (timers w)) as [m|] eqn:Hmin.
  - exists extra. simpl. split; [exact Hout|].
    destruct H as [[Hin Hle]|H]; [left|now right].
    split; [exact Hin|].
    pose proof (min_due_le _ _ _ Hmin Hin). lia.
  - exists extra. simpl. split; [exact Hout|].
    destruct H as [[Hin Hle]|H]; [|now right].
    apply min_due_none in Hmin. rewrite Hmin in Hin. destruct Hin.
Qed.

Lemma clearing_dispatch T base (ev : Event) (w : World) :
  callback T = CbClearBadge ->
  clearing T base w -> clearing T base (dispatch ev w).
Proof.
  intros HT.
  apply (dispatch_invariant (clearing T base) (fun _ => true));
    first [ reflexivity
          | solve [intros v w0; apply clearing_env; auto]
          | solve [intros; clearing_listener]
          | idtac ].
  - intros w0. now apply clearing_fire.
  - intros d w0. apply clearing_elapse.
Qed.

Lemma shown_emit text (e : Effect) : preserves (shown text) (emit e).
Proof. intros w H; exact H. Qed.

Ltac shown_modify :=
  let w := fresh "w" in let Hb := fresh "Hb" in let Ht := fresh "Ht" in
  intros w [Hb Ht]; split;
  [ exact Hb
  | first [ exact Ht
          | unfold no_clear_pending in *; simpl;
            rewrite forallb_app, Ht; reflexivity ] ].

Lemma shown_broadcast text (message : JSValue) :
  preserves (shown text) (broadcastToPopups message).
Proof.
  intros w Hw. unfold broadcastToPopups.
  apply preserves_forEach; [|exact Hw].
  clear w Hw. intros port w Hw _.
  unfold broadcast_callback, postMessage, console_error.
  apply preserves_try_catch; [|intros ?|exact Hw]; listener_shape;
    first [ apply shown_emit | shown_modify ].
Qed.

Ltac shown_leaf :=
  first [ apply shown_emit | apply shown_broadcast | shown_modify ].

Ltac shown_listener :=
  unfold_listeners; repeat (listener_shape; try shown_leaf).

Lemma shown_onmessage text (parsed : JSError + JSValue) :
  is_task_update parsed = false -> preserves (shown text) (ws_onmessage parsed).
Proof.
  intros Hupd w Hw. unfold ws_onmessage.
  destruct parsed as [e|message].
  - revert w Hw. apply preserves_exec. shown_listener.
  - unfold try_catch. rewrite handleWebSocketMessage_route.
    apply (shown_broadcast text message) in Hw.
    change (snd (broadcastToPopups message w))
      with (exec (broadcastToPopups message) w) in Hw.
    revert Hw. generalize (exec (broadcastToPopups message) w).
    clear w. intros w Hw.
    change (shown text
              (exec (try_catch (route message)
                       (fun error =>
                          console_error "Error parsing WebSocket message:"
                                        (error_value error))) w)).
    revert w Hw. apply preserves_exec.
    apply preserves_try_catch;
      [|intros ?; unfold console_error; apply shown_emit].
    unfold route.
    destruct message; simpl in Hupd;
      try (unfold get_member, bind, ret, throw; intros w Hw; exact Hw).
    intros w Hw. unfold get_member, bind at 1, ret. rewrite Hupd.
    revert w Hw. apply preserves_exec. shown_listener.
Qed.

Lemma shown_fire text (w : World) : shown text w -> shown text (fire_timer w).
Proof.
  intros Hw. unfold fire_timer.
  destruct (min_due (timers w)) as [d|] eqn:Hmin; [|exact Hw].
  destruct (take_due d (timers w)) as [[t rest]|] eqn:Htake; [|exact Hw].
  destruct (take_due_spec _ _ _ _ Htake) as [Hd Hsplit].
  destruct Hw as [Hb Ht]. unfold no_clear_pending in Ht.
  rewrite forallb_forall in Ht.
  assert (Hclear : negb (is_clear t) = true)
    by (apply Ht, Hsplit; now left).
  match goal with
  | |- shown _ (exec _ ?w1) => assert (H : shown text w1); [|revert H; generalize w1]
  end.
  { split; [exact Hb|]. unfold no_clear_pending; simpl.
    rewrite forallb_app. apply andb_true_intro. split.
    - apply forallb_forall. intros x Hx. apply Ht, Hsplit. now right.
    - unfold rearm. destruct (period t); simpl; [|reflexivity].
      unfold is_clear in *; simpl. now rewrite Hclear. }
  unfold is_clear in Hclear.
  destruct (callback t); [| discriminate Hclear |];
    apply preserves_exec; shown_listener.
Qed.

Lemma shown_dispatch text (ev : Event) (w : World) :
  negb (is_task_update_event ev) = true ->
  shown text w -> shown text (dispatch ev w).
Proof.
  apply (dispatch_invariant (shown text)
           (fun ev => negb (is_task_update_event ev)));
    first [ solve [intros v w0 H; exact H]
          | solve [intros; shown_listener]
          | idtac ].
  - intros s parsed Hp. apply shown_onmessage. now apply negb_true_iff.
  - apply shown_fire.
  - intros d w0 H. unfold elapse. destruct (min_due (timers w0)); exact H.
Qed.

(** C8 as stated fails: a failed update that comes while the timer of an
    earlier completed update is still armed shows the failure badge,
    and that timer clears it two seconds later, with no frame from the
    backend in between. *)
Lemma failure_badge_cleared_by_pending_timer :
  let w := run [EvWsOpen 0;
                EvWsMessage 0 (inr (task_update "completed"));
                EvElapse 1000;
                EvWsMessage 0 (inr (task_update "failed"))] startup in
  let w' := run [EvElapse 2000; EvTimer] w in
  badgeText w = "!" /\ now w = 1000%Z /\
  badgeText w' = "" /\ now w' = 3000%Z.
Proof. vm_compute. repeat split. Qed.

(** C8, amended.  A completed update sets the success badge and arms
    one timer due 3000 ms later; whatever events follow, that timer
    stays armed while the clock has not passed its due time, and when
    it fires the text of the badge is set to the empty string at exactly
    that time; nothing disarms it.  A failed update sets the failure
    badge and arms nothing; if no timer of an earlier completed update
    is armed, the failure badge stays through any events that are not a
    task update. *)
Theorem task_update_badge (fields : list (string * JSValue)) (w : World) :
  let message := JObj fields in
  let w1 := exec (handleTaskUpdate message) w in
  (lookup "status" fields = JStr "completed" ->
   badgeText w1 = "✓" /\ badgeColor w1 = "#4CAF50" /\
   timers w1 = timers w ++ [clear_timer (now w)] /\
   forall evs,
     let w' := run evs w1 in
     (In (clear_timer (now w)) (timers w') /\ (now w' <= now w + 3000)%Z) \/
     In ((now w + 3000)%Z, SetBadgeText "") (since w1 w')) /\
  (lookup "status" fields = JStr "failed" ->
   badgeText w1 = "!" /\ badgeColor w1 = "#F44336" /\
   timers w1 = timers w /\
   (no_clear_pending w = true ->
    forall evs,
      forallb (fun ev => negb (is_task_update_event ev)) evs = true ->
      badgeText (run evs w1) = "!")).
Proof.
  intros message w1. split; intros Hstatus.
  - assert (Hw1 : w1 = set_timers (timers w ++ [clear_timer (now w)])
                         (set_out (out w ++
                                   [(now w, SetBadgeText "✓");
                                    (now w, SetBadgeBackgroundColor "#4CAF50");
                                    (now w, SetTimeout CbClearBadge 3000)])
                            (set_badgeColor "#4CAF50" (set_badgeText "✓" w)))).
    { unfold w1, message, exec, handleTaskUpdate, bind; simpl.
      rewrite Hstatus; simpl. rewrite <- !app_assoc. reflexivity. }
    clearbody w1. subst w1.
    split; [reflexivity|]. split; [reflexivity|]. split; [reflexivity|].
    intros evs w'.
    match goal with
    | w' := run evs ?w1 |- _ =>
        assert (H : clearing (clear_timer (now w)) (out w1) w')
    end.
    { apply run_invariant.
      - intros ev w0. now apply clearing_dispatch.
      - exists []. simpl. rewrite app_nil_r. split; [reflexivity|].
        left. split; [apply in_or_app; right; now left|lia]. }
    destruct H as [extra [Hout H]].
    destruct H as [H|H]; [left; exact H|right].
    unfold since. rewrite Hout, skipn_length_app. exact H.
  - assert (Hw1 : w1 = set_out (out w ++
                                [(now w, SetBadgeText "!");
                                 (now w, SetBadgeBackgroundColor "#F44336")])
                         (set_badgeColor "#F44336" (set_badgeText "!" w))).
    { unfold w1, message, exec, handleTaskUpdate, bind; simpl.
      rewrite Hstatus; simpl. rewrite <- !app_assoc. reflexivity. }
    clearbody w1. subst w1.
    split; [reflexivity|]. split; [reflexivity|]. split; [reflexivity|].
    intros Hclear evs Hevs.
    apply (run_invariant_on _ (shown "!")
             (fun ev w0 => shown_dispatch "!" ev w0) evs _ Hevs).
    split; [reflexivity|exact Hclear].
Qed.

Lemma task_update_badge_witness :
  let w := run [EvWsOpen 0] startup in
  let completed := exec (handleTaskUpdate (task_update "completed")) w in
  let failed := exec (handleTaskUpdate (task_update "failed")) w in
  (badgeText completed = "✓" /\
   In (3000%Z, SetBadgeText "")
      (since completed (run [EvElapse 5000; EvTimer] completed))) /\
  (badgeText failed = "!" /\ timers failed = timers w /\
   badgeText (run [EvElapse 60000; EvTimer; EvWsClose 0; EvTimer] failed) = "!").
Proof.
  intros w completed failed.
  destruct (task_update_badge
              [("type", JStr "task_update"); ("status", JStr "completed")] w)
    as [Hc _].
  destruct (task_update_badge
              [("type", JStr "task_update"); ("status", JStr "failed")] w)
    as [_ Hf].
  destruct (Hc eq_refl) as [C1 [_ [_ C2]]].
  specialize (C2 [EvElapse 5000; EvTimer]).
  destruct (Hf eq_refl) as [F1 [_ [F2 F3]]].
  specialize (F3 eq_refl [EvElapse 60000; EvTimer; EvWsClose 0; EvTimer] eq_refl).
  vm_compute in C1, C2, F1, F2, F3 |- *.
  split; [split; [exact C1|] | split; [exact F1 | split; [exact F2 | exact F3]]].
  destruct C2 as [[[H|[]] _]|H]; [discriminate H | exact H].
Defined.

(** ** C9: only popups are registered *)

Lemma popup_only_emit (e : Effect) :
  to_popup e -> preserves popup_only (emit e).
Proof.
  intros He w [Hp [Hl Ho]]. repeat split; auto. simpl.
  apply Forall_app. split; [exact Ho|]. now repeat constructor.
Qed.

Lemma popup_only_env (w w' : World) :
  ports w' = ports w -> listeners w' = listeners w -> out w' = out w ->
  popup_only w -> popup_only w'.
Proof. unfold popup_only. intros -> -> ->. auto. Qed.

Lemma popup_only_delete (q : Port) :
  preserves popup_only (modify (fun w => set_ports (Set_delete q (ports w)) w)).
Proof.
  intros w [Hp [Hl Ho]]. repeat split; auto. simpl.
  rewrite Forall_forall in *. intros x Hx.
  apply Hp. now apply (live_Set_delete_incl q).
Qed.

Lemma popup_only_broadcast (message : JSValue) :
  preserves popup_only (broadcastToPopups message).
Proof.
  intros w Hw. unfold broadcastToPopups.
  apply preserves_forEach; [|exact Hw].
  clear w Hw. intros port w Hw Hport.
  assert (Hname : port_name port = "popup").
  { destruct Hw as [Hp _]. rewrite Forall_forall in Hp.
    now apply Hp, Set_has_live. }
  unfold broadcast_callback, postMessage, console_error.
  apply preserves_try_catch; [|intros ?|exact Hw]; listener_shape;
    first [ apply popup_only_emit; first [exact Hname|exact I]
          | apply popup_only_delete ].
Qed.

Ltac popup_only_leaf :=
  first [ apply popup_only_emit; exact I
        | apply popup_only_broadcast
        | apply popup_only_delete
        | let w := fresh "w" in let H := fresh "H" in
          intros w H; revert H; apply popup_only_env; reflexivity ].

Ltac popup_only_listener :=
  unfold_listeners; repeat (listener_shape; try popup_only_leaf).

Lemma popup_only_onConnect (port : Port) : preserves popup_only (onConnect port).
Proof.
  unfold onConnect.
  destruct (String.eqb_spec (port_name port) "popup") as [Hname|Hname];
    [|apply preserves_ret].
  unfold postMessage.
  repeat (listener_shape;
          try first [ apply popup_only_emit; exact Hname | popup_only_leaf ]).
  - intros w [Hp [Hl Ho]]. repeat split; auto. simpl.
    unfold Set_add. destruct (Set_has port (ports w)); [exact Hp|].
    rewrite live_app. apply Forall_app. split; [exact Hp|].
    now repeat constructor.
  - intros w [Hp [Hl Ho]]. repeat split; auto. simpl. now constructor.
Qed.

Lemma popup_only_dispatch (ev : Event) (w : World) :
  popup_only w -> popup_only (dispatch ev w).
Proof.
  apply (dispatch_invariant popup_only (fun _ => true));
    first [ reflexivity
          | solve [intros v w0 H; exact H]
          | solve [intros; popup_only_listener]
          | idtac ].
  - intros p _. apply popup_only_onConnect.
  - apply fire_timer_invariant; try (intros v w0 H; exact H).
    intros cb; destruct cb; popup_only_listener.
  - intros d w0 H. unfold elapse. destruct (min_due (timers w0)); exact H.
Qed.

Lemma popup_only_startup : popup_only startup.
Proof. repeat split; repeat constructor. Qed.

Lemma posts_to_other (p : Port) (calls : list (Z * Effect)) :
  port_name p <> "popup" ->
  Forall (fun c => to_popup (snd c)) calls -> posts_to p calls = [].
Proof.
  intros Hp. induction 1 as [|[t e] calls He Hcalls IH]; simpl; auto.
  destruct e; auto. simpl in He.
  destruct (Port_eqb_spec port p) as [->|]; [contradiction|exact IH].
Qed.

(** C9.  In every world the script can reach: a port in the Set was
    opened under the name popup; a port opened under any other name is
    not in the Set, has never had a message posted on it (neither the
    connection status sent at connection nor a broadcast), its
    connection changes nothing, and a message from it, execute_task or
    not, changes nothing. *)
Theorem registry_holds_popups_only (evs : list Event) (p : Port) :
  let w := run evs startup in
  (Set_has p (ports w) = true -> port_name p = "popup") /\
  (port_name p <> "popup" ->
   Set_has p (ports w) = false /\
   posts_to p (out w) = [] /\
   dispatch (EvPortConnect p) w = w /\
   forall message, dispatch (EvPortMessage p message) w = w).
Proof.
  intros w.
  assert (H : popup_only w).
  { apply run_invariant; [apply popup_only_dispatch|apply popup_only_startup]. }
  destruct H as [Hports [Hlisteners Hout]].
  assert (Hreg : Set_has p (ports w) = true -> port_name p = "popup").
  { intros Hp. rewrite Forall_forall in Hports. now apply Hports, Set_has_live. }
  split; [exact Hreg|]. intros Hname. repeat split.
  - destruct (Set_has p (ports w)); [|reflexivity]. now destruct Hname; auto.
  - now apply posts_to_other.
  - simpl. unfold exec, onConnect.
    destruct (String.eqb_spec (port_name p) "popup"); [contradiction|reflexivity].
  - intros message. simpl.
    assert (Hl : has_listeners p w = false).
    { unfold has_listeners. destruct (existsb (Port_eqb p) (listeners w)) eqn:E;
        [|reflexivity].
      apply existsb_exists in E as [q [Hq Heq]].
      destruct (Port_eqb_spec p q) as [->|]; [|discriminate].
      rewrite Forall_forall in Hlisteners. now apply Hlisteners in Hq. }
    now rewrite Hl.
Qed.

Lemma registry_holds_popups_only_witness :
  let popup := {| port_id := 1; port_name := "popup" |} in
  let options := {| port_id := 2; port_name := "options" |} in
  let evs := [EvWsOpen 0; EvPortConnect popup; EvPortConnect options;
              EvWsMessage 0 (inr (task_update "running"))] in
  let w := run evs startup in
  Set_has popup (ports w) = true /\
  Set_has options (ports w) = false /\
  posts_to options (out w) = [] /\
  dispatch (EvPortMessage options
              (JObj [("type", JStr "execute_task"); ("task", JStr "go")])) w = w.
Proof.
  intros popup options evs w.
  destruct (registry_holds_popups_only evs options) as [_ H].
  assert (Hname : port_name options <> "popup") by discriminate.
  destruct (H Hname) as [H1 [H2 [_ H3]]].
  split; [reflexivity|]. split; [exact H1|]. split; [exact H2|]. apply H3.
Defined.

(** * Further properties *)

(** ** Reconnection, in every run *)

(** One run of [ws.onopen]: the counter goes back to zero; nothing is
    scheduled. *)
Lemma quiet_onopen n ds c base (w : World) :
  quiet n ds c base w -> quiet 0 ds c base (exec ws_onopen w).
Proof.
  intros Hw. unfold ws_onopen.
  rewrite (exec_bind _ _ _ tt) by reflexivity.
  apply (quiet_emit n ds c base (ConsoleLog "Connected to WebSocket server")
           eq_refl eq_refl) in Hw.
  revert Hw.
  change (snd (emit (ConsoleLog "Connected to WebSocket server") w))
    with (exec (console_log "Connected to WebSocket server") w).
  generalize (exec (console_log "Connected to WebSocket server") w).
  clear w. intros w Hw.
  rewrite (exec_bind _ _ _ tt) by reflexivity.
  apply quiet_broadcast.
  destruct Hw as [_ Hout]. split; [reflexivity|exact Hout].
Qed.

Lemma valid_delay_backoff (n : nat) :
  n < MAX_RECONNECT_ATTEMPTS -> valid_delay (backoff (n + 1)) = true.
Proof.
  intros Hn. unfold valid_delay. apply existsb_exists.
  exists (n + 1). split; [|apply Z.eqb_refl].
  apply in_seq. unfold MAX_RECONNECT_ATTEMPTS in *. lia.
Qed.

Lemma bounded_retries_quiet (w : World) :
  quiet (reconnectAttempts w) (reconnect_delays (out w)) (closes (out w)) [] w.
Proof. split; [reflexivity|]. exists (out w). auto. Qed.

Lemma bounded_retries_dispatch (ev : Event) (w : World) :
  bounded_retries w -> bounded_retries (dispatch ev w).
Proof.
  intros [Hn Hds]. pose proof (bounded_retries_quiet w) as Hq.
  destruct (is_open_event ev) eqn:Hopen; [|destruct (is_close_event ev) eqn:Hclose].
  - destruct ev; try discriminate. simpl.
    destruct (has_socket s w); [|now split].
    assert (H : quiet (reconnectAttempts w) (reconnect_delays (out w))
                      (closes (out w)) [] (set_readyState s OPEN w))
      by (revert Hq; apply quiet_env; reflexivity).
    apply quiet_onopen in H. destruct H as [H0 [extra [Hout [Hd _]]]].
    simpl in Hout. split; [rewrite H0; lia|]. now rewrite Hout, Hd.
  - destruct ev; try discriminate. simpl.
    destruct (has_socket s w); [|now split].
    assert (H : quiet (reconnectAttempts w) (reconnect_delays (out w))
                      (closes (out w)) [] (set_readyState s CLOSED w))
      by (revert Hq; apply quiet_env; reflexivity).
    apply quiet_onclose in H. destruct H as [H0 [extra [Hout [Hd _]]]].
    simpl in Hout. unfold bounded_retries. rewrite Hout, Hd, H0.
    destruct (Nat.ltb_spec (reconnectAttempts w) MAX_RECONNECT_ATTEMPTS) as [Hlt|Hge].
    + split; [lia|]. rewrite forallb_app, Hds. cbn [forallb andb].
      pose proof (valid_delay_backoff _ Hlt) as Hv. unfold backoff in Hv.
      now rewrite Hv.
    + split; [exact Hn|]. now rewrite app_nil_r.
  - destruct (quiet_dispatch _ _ _ _ ev w Hopen Hclose Hq)
      as [H0 [extra [Hout [Hd _]]]].
    simpl in Hout. split; [now rewrite H0|]. now rewrite Hout, Hd.
Qed.

(** X1.  In every world the script can reach, whatever the events
    (openings included): the counter of reconnection attempts is at
    most [MAX_RECONNECT_ATTEMPTS], and every reconnection ever
    scheduled was scheduled after 1, 2, 3, 4 or 5 times
    [RECONNECT_DELAY]. *)
Theorem retries_are_bounded (evs : list Event) :
  let w := run evs startup in
  reconnectAttempts w <= MAX_RECONNECT_ATTEMPTS /\
  forallb valid_delay (reconnect_delays (out w)) = true.
Proof.
  intros w. apply (run_invariant bounded_retries).
  - apply bounded_retries_dispatch.
  - split; [unfold MAX_RECONNECT_ATTEMPTS; simpl; lia|reflexivity].
Qed.

Lemma backed_off_from_zero (evs : list Event) (w : World) :
  reconnectAttempts w = 0 ->
  forallb (fun ev => negb (is_open_event ev)) evs = true ->
  backed_off (out w) (run evs w).
Proof.
  intros H0 Hevs.
  apply (run_invariant_on _ _ (backed_off_dispatch (out w)) evs w Hevs).
  exists 0. split; [exact H0|]. exists []. now rewrite app_nil_r.
Qed.

(** X2.  An opening gives the retries back: after [ws.onopen] has run on
    a socket, in any world and whatever the counter was, the closes that
    follow (with no opening among the events) schedule reconnections
    after 1, 2, ... times [RECONNECT_DELAY] again, up to the fifth. *)
Theorem backoff_restarts_after_open (w : World) (s : nat) (evs : list Event) :
  has_socket s w = true ->
  forallb (fun ev => negb (is_open_event ev)) evs = true ->
  let w1 := dispatch (EvWsOpen s) w in
  let w' := run evs w1 in
  let n := Nat.min MAX_RECONNECT_ATTEMPTS (closes (since w1 w')) in
  reconnectAttempts w1 = 0 /\
  reconnect_delays (since w1 w') = map backoff (seq 1 n) /\
  reconnectAttempts w' = n.
Proof.
  intros Hs Hevs w1 w' n.
  assert (H0 : reconnectAttempts w1 = 0).
  { unfold w1. simpl. rewrite Hs.
    pose proof (bounded_retries_quiet (set_readyState s OPEN w)) as Hq.
    apply quiet_onopen in Hq. now destruct Hq. }
  split; [exact H0|].
  destruct (backed_off_from_zero evs w1 H0 Hevs)
    as [c [Hn [extra [Hout [Hds Hc]]]]].
  unfold n, since, w'. rewrite Hout, skipn_length_app, Hc. auto.
Qed.

Lemma backoff_restarts_after_open_witness :
  let w := run [EvWsClose 0; EvTimer; EvWsClose 1; EvTimer; EvWsClose 2;
                EvTimer] startup in
  let evs := [EvWsClose 3; EvTimer; EvWsError 4; EvWsClose 4] in
  reconnectAttempts w = 3 /\
  reconnect_delays (since (dispatch (EvWsOpen 3) w)
                          (run evs (dispatch (EvWsOpen 3) w)))
  = [1000; 2000]%Z /\
  reconnectAttempts (run evs (dispatch (EvWsOpen 3) w)) = 2.
Proof.
  intros w evs. split; [reflexivity|].
  generalize (backoff_restarts_after_open w 3 evs eq_refl eq_refl).
  vm_compute. intros [_ H]. exact H.
Defined.

(** ** One connection *)

Lemma length_set_nth {A} (i : nat) (x : A) (l : list A) :
  List.length (set_nth i x l) = List.length l.
Proof.
  revert i. induction l as [|y l IH]; intros [|i]; simpl; auto.
Qed.

Lemma nth_error_set_nth_same {A} (i : nat) (x : A) (l : list A) :
  i < List.length l -> nth_error (set_nth i x l) i = Some x.
Proof.
  revert i. induction l as [|y l IH]; intros [|i] H; simpl in *; try lia; auto.
  apply IH. lia.
Qed.

Lemma nth_error_set_nth_other {A} (i j : nat) (x : A) (l : list A) :
  j <> i -> nth_error (set_nth i x l) j = nth_error l j.
Proof.
  revert i j. induction l as [|y l IH]; intros [|i] [|j] H; simpl; auto;
    try congruence.
Qed.

Lemma one_connection_env (w w' : World) :
  sockets w' = sockets w -> ws w' = ws w ->
  one_connection w -> one_connection w'.
Proof.
  unfold one_connection, has_socket, readyState. intros -> ->. auto.
Qed.

Lemma one_connection_emit (e : Effect) : preserves one_connection (emit e).
Proof. intros w. apply one_connection_env; reflexivity. Qed.

Ltac one_connection_modify :=
  let w := fresh "w" in
  intros w; apply one_connection_env; reflexivity.

Lemma one_connection_broadcast (message : JSValue) :
  preserves one_connection (broadcastToPopups message).
Proof.
  intros w Hw. unfold broadcastToPopups.
  apply preserves_forEach; [|exact Hw].
  clear w Hw. intros port w Hw _.
  unfold broadcast_callback, postMessage, console_error.
  apply preserves_try_catch; [|intros ?|exact Hw]; listener_shape;
    first [ apply one_connection_emit | one_connection_modify ].
Qed.

Ltac one_connection_leaf :=
  first [ apply one_connection_emit | apply one_connection_broadcast
        | one_connection_modify ].

Ltac one_connection_listener :=
  unfold onConnect, port_onDisconnect, port_onMessage, executeTask,
    executeTask_resume, executeTask_catch, ws_onopen, ws_onclose, ws_onerror,
    ws_onmessage, handleWebSocketMessage, handleTaskUpdate,
    handleBrowserState, handleError, ping,
    setTimeout, setBadgeText, setBadgeBackgroundColor, fetch, suspend,
    console_log, console_error, postMessage;
  repeat (listener_shape; try one_connection_leaf).

(** [connectWebSocket] closes the socket it held, if that one is still
    connecting or open, and holds a new one. *)
Lemma one_connection_connectWebSocket :
  preserves one_connection connectWebSocket.
Proof.
  intros w [[cur [Hcur Hhas]] Hidle].
  unfold connectWebSocket, bind, gets, new_WebSocket, WebSocket_close,
    bind, gets, emit, modify, ret.
  rewrite Hcur. unfold has_socket in Hhas. apply Nat.ltb_lt in Hhas.
  assert (Hstep : forall socks,
             List.length socks = List.length (sockets w) ->
             (forall s r, nth_error socks s = Some r -> s <> cur ->
                          nth_error (sockets w) s = Some r) ->
             (forall r, nth_error socks cur = Some r -> is_idle r = true) ->
             forall w1, sockets w1 = socks ++ [CONNECTING] ->
                        ws w1 = Some (List.length socks) ->
                        one_connection w1).
  { intros socks Hlen Hother Hself w1 Hsock Hws. split.
    - exists (List.length socks). split; [exact Hws|].
      unfold has_socket. rewrite Hsock, length_app. apply Nat.ltb_lt. simpl. lia.
    - intros s r Hs Hne. unfold readyState in Hs. rewrite Hsock in Hs.
      rewrite Hws in Hne.
      assert (Hlt : s < List.length socks).
      { assert (s < List.length (socks ++ [CONNECTING]))
          by (apply nth_error_Some; congruence).
        rewrite length_app in H. simpl in H.
        assert (s <> List.length socks) by congruence. lia. }
      rewrite nth_error_app1 in Hs by exact Hlt.
      destruct (Nat.eq_dec s cur) as [->|Hsc]; [now apply Hself|].
      apply (Hidle s r); [now apply Hother|congruence]. }
  destruct (readyState cur w) as [r|] eqn:Hr; unfold readyState in Hr.
  - assert (Hold : forall r', r = r' -> is_idle r' = true ->
                              one_connection
                                (set_ws (Some (List.length (sockets w)))
                                   (set_sockets (sockets w ++ [CONNECTING])
                                      (set_out (out w ++
                                                [(now w, WebSocketNew
                                                           (List.length (sockets w))
                                                           "ws://localhost:5000/ws")])
                                         w)))).
    { intros r' <- Hi. apply (Hstep (sockets w)); auto.
      intros r0 H0. congruence. }
    assert (Hnew : one_connection
                     (set_ws (Some (List.length (set_nth cur CLOSING (sockets w))))
                        (set_sockets (set_nth cur CLOSING (sockets w) ++ [CONNECTING])
                           (set_out ((out w ++ [(now w, WebSocketClose cur)]) ++
                                     [(now w, WebSocketNew
                                                (List.length
                                                   (set_nth cur CLOSING (sockets w)))
                                                "ws://localhost:5000/ws")])
                              w)))).
    { apply (Hstep (set_nth cur CLOSING (sockets w))); auto.
      - apply length_set_nth.
      - intros s r0 Hs Hne. now rewrite nth_error_set_nth_other in Hs.
      - intros r0 H0. rewrite nth_error_set_nth_same in H0 by exact Hhas.
        now injection H0 as <-. }
    destruct r; simpl; first [exact Hnew | now apply (Hold _ eq_refl)].
  - apply nth_error_None in Hr. lia.
Qed.

Lemma one_connection_run_callback (cb : Callback) :
  preserves one_connection (run_callback cb).
Proof.
  destruct cb; unfold run_callback.
  - apply one_connection_connectWebSocket.
  - one_connection_listener.
  - one_connection_listener.
Qed.

Lemma one_connection_set_readyState (s : nat) (r : ReadyState) (w : World) :
  one_connection w ->
  (ws w = Some s \/ is_idle r = true) ->
  one_connection (set_readyState s r w).
Proof.
  intros [[cur [Hcur Hhas]] Hidle] Hr. split.
  - exists cur. split; [exact Hcur|].
    unfold has_socket, set_readyState in *. simpl. now rewrite length_set_nth.
  - intros s' r' Hs' Hne. unfold readyState, set_readyState in Hs'. simpl in *.
    destruct (Nat.eq_dec s' s) as [->|Hss].
    + destruct Hr as [Hr|Hr]; [contradiction|].
      assert (Hlt : s < List.length (sockets w)).
      { rewrite <- (length_set_nth s r). apply nth_error_Some. congruence. }
      rewrite nth_error_set_nth_same in Hs' by exact Hlt. congruence.
    + rewrite nth_error_set_nth_other in Hs' by exact Hss.
      now apply (Hidle s' r').
Qed.

Lemma one_connection_dispatch (ev : Event) (w : World) :
  browser_allows ev w = true ->
  one_connection w -> one_connection (dispatch ev w).
Proof.
  intros Hev Hw. destruct ev; simpl.
  - revert w Hev Hw. intros w _. apply preserves_exec. one_connection_listener.
  - revert Hw. apply one_connection_env; reflexivity.
  - destruct (has_listeners p w); [apply preserves_exec;
                                   [one_connection_listener|]|];
      revert Hw; apply one_connection_env; reflexivity.
  - destruct (has_listeners p w); [|exact Hw].
    revert w Hev Hw. intros w _. apply preserves_exec. one_connection_listener.
  - destruct (has_socket s w); [|exact Hw].
    apply preserves_exec; [one_connection_listener|].
    apply one_connection_set_readyState; [exact Hw|]. left.
    simpl in Hev. destruct (readyState s w) as [[| | |]|] eqn:Hr; try discriminate.
    destruct (ws w) as [cur|] eqn:Hcur.
    + destruct (Nat.eq_dec cur s) as [->|Hne]; [reflexivity|].
      destruct Hw as [_ Hidle]. specialize (Hidle s CONNECTING Hr).
      rewrite Hcur in Hidle. discriminate Hidle. congruence.
    + destruct Hw as [[cur [Hc _]] _]. congruence.
  - destruct (has_socket s w); [|exact Hw].
    apply preserves_exec; [one_connection_listener|].
    apply one_connection_set_readyState; [exact Hw|now right].
  - destruct (has_socket s w); [|exact Hw].
    revert w Hev Hw. intros w _. apply preserves_exec. one_connection_listener.
  - destruct (has_socket s w); [|exact Hw].
    revert w Hev Hw. intros w _. apply preserves_exec. one_connection_listener.
  - unfold settle. destruct (lookup_task id w) as [a|]; [|exact Hw].
    assert (H : one_connection (exec (executeTask_resume a s) w)).
    { revert w Hev Hw. intros w _. apply preserves_exec. one_connection_listener. }
    unfold exec in H.
    destruct (executeTask_resume a s w) as [[[a'|]|e|] w'];
      revert H; apply one_connection_env; reflexivity.
  - unfold fire_timer. destruct (min_due (timers w)) as [d|]; [|exact Hw].
    destruct (take_due d (timers w)) as [[t rest]|]; [|exact Hw].
    apply one_connection_run_callback.
    revert Hw. apply one_connection_env; reflexivity.
  - unfold elapse. destruct (min_due (timers w));
      revert Hw; apply one_connection_env; reflexivity.
Qed.

(** X3.  At most one connection.  In every world reached from the start
    of the script, the browser firing its open events on connecting
    sockets only: [ws] holds a socket, and every other socket the
    script has ever made is closing or closed. *)
Theorem one_connection_at_a_time (evs : list Event) :
  browser_run evs startup = true -> one_connection (run evs startup).
Proof.
  assert (H : forall w, one_connection w -> browser_run evs w = true ->
                        one_connection (run evs w)).
  { induction evs as [|ev evs IH]; intros w Hw Hrun; simpl in *; [exact Hw|].
    apply andb_prop in Hrun as [Hev Hrun].
    apply IH; [|exact Hrun]. now apply one_connection_dispatch. }
  intros Hrun. apply H; [|exact Hrun].
  split.
  - exists 0. split; reflexivity.
  - intros [|s] r Hs Hne; [now contradiction Hne|].
    destruct s; discriminate Hs.
Qed.

Lemma one_connection_at_a_time_witness :
  one_connection
    (run [EvWsOpen 0; EvWsClose 0; EvTimer; EvWsOpen 1; EvWsError 1;
          EvWsClose 1; EvTimer; EvTimer] startup).
Proof.
  exact (one_connection_at_a_time
           [EvWsOpen 0; EvWsClose 0; EvTimer; EvWsOpen 1; EvWsError 1;
            EvWsClose 1; EvTimer; EvTimer] eq_refl).
Defined.

(** ** What an event never causes *)

(** One turn of the event loop, when only the events [allowed] are
    considered: every listener's rule is asked for the events that run
    it. *)
Section DispatchOn.
Variable I : World -> Prop.
Variable allowed : Event -> bool.
Hypothesis I_sockets : forall v w, I w -> I (set_sockets v w).
Hypothesis I_broken : forall v w, I w -> I (set_broken v w).
Hypothesis I_tasks : forall v w, I w -> I (set_tasks v w).
Hypothesis I_timers : forall v w, I w -> I (set_timers v w).
Hypothesis I_now : forall v w, I w -> I (set_now v w).
Hypothesis I_onConnect :
  forall p, allowed (EvPortConnect p) = true -> preserves I (onConnect p).
Hypothesis I_onDisconnect : forall p, preserves I (port_onDisconnect p).
Hypothesis I_onMessage :
  forall p message, allowed (EvPortMessage p message) = true ->
                    preserves I (port_onMessage message).
Hypothesis I_onopen :
  forall s, allowed (EvWsOpen s) = true -> preserves I ws_onopen.
Hypothesis I_onclose :
  forall s, allowed (EvWsClose s) = true -> preserves I ws_onclose.
Hypothesis I_onerror :
  forall s, allowed (EvWsError s) = true -> preserves I ws_onerror.
Hypothesis I_onmessage :
  forall s parsed, allowed (EvWsMessage s parsed) = true ->
                   preserves I (ws_onmessage parsed).
Hypothesis I_resume :
  forall id a s, allowed (EvSettle id s) = true ->
                 preserves I (executeTask_resume a s).
Hypothesis I_callback :
  forall cb, allowed EvTimer = true -> preserves I (run_callback cb).

Lemma dispatch_invariant_on (ev : Event) (w : World) :
  allowed ev = true -> I w -> I (dispatch ev w).
Proof.
  intros Hev Hw. destruct ev; simpl.
  - now apply I_onConnect.
  - now apply I_broken.
  - destruct (has_listeners p w); [apply I_onDisconnect|]; now apply I_broken.
  - destruct (has_listeners p w); [now apply (I_onMessage p)|exact Hw].
  - destruct (has_socket s w); [|exact Hw].
    apply (I_onopen s Hev). now apply I_sockets.
  - destruct (has_socket s w); [|exact Hw].
    apply (I_onclose s Hev). now apply I_sockets.
  - destruct (has_socket s w); [now apply (I_onerror s)|exact Hw].
  - destruct (has_socket s w); [now apply (I_onmessage s)|exact Hw].
  - unfold settle. destruct (lookup_task id w) as [a|]; [|exact Hw].
    pose proof (I_resume id a s Hev w Hw) as H.
    destruct (executeTask_resume a s w) as [[[a'|]|e|] w'];
      now apply I_tasks.
  - unfold fire_timer. destruct (min_due (timers w)) as [d|]; [|exact Hw].
    destruct (take_due d (timers w)) as [[t rest]|]; [|exact Hw].
    apply (I_callback _ Hev). auto.
  - unfold elapse. destruct (min_due (timers w)); auto.
Qed.
End DispatchOn.

Section Unseen.
Variable keep : Effect -> bool.
Variable base : list (Z * Effect).

Lemma unseen_emit (e : Effect) :
  keep e = false -> preserves (unseen keep base) (emit e).
Proof.
  intros He w [extra [Hout Hextra]].
  exists (extra ++ [(now w, e)]). simpl. split.
  - rewrite Hout. now rewrite app_assoc.
  - rewrite forallb_app, Hextra. simpl. now rewrite He.
Qed.

Lemma unseen_env (w w' : World) :
  out w' = out w -> unseen keep base w -> unseen keep base w'.
Proof. unfold unseen. now intros ->. Qed.

Lemma unseen_broadcast (message : JSValue) :
  (forall p m b, keep (PostMessage p m b) = false) ->
  (forall t d, keep (ConsoleError t d) = false) ->
  preserves (unseen keep base) (broadcastToPopups message).
Proof.
  intros Hpost Herr w Hw. unfold broadcastToPopups.
  apply preserves_forEach; [|exact Hw].
  clear w Hw. intros port w Hw _.
  unfold broadcast_callback, postMessage, console_error.
  apply preserves_try_catch; [|intros ?|exact Hw]; listener_shape;
    first [ apply unseen_emit; first [apply Hpost|apply Herr]
          | intros w0; apply unseen_env; reflexivity ].
Qed.

Lemma unseen_since (w w' : World) :
  base = out w -> unseen keep base w' ->
  forallb (fun c => negb (keep (snd c))) (since w w') = true.
Proof.
  intros -> [extra [Hout Hextra]]. unfold since.
  now rewrite Hout, skipn_length_app.
Qed.

Lemma unseen_here (w : World) : base = out w -> unseen keep base w.
Proof. intros ->. exists []. now rewrite app_nil_r. Qed.
End Unseen.

Ltac unseen_leaf :=
  first [ apply unseen_emit; reflexivity
        | apply unseen_broadcast; intros; reflexivity
        | let w := fresh "w" in intros w; apply unseen_env; reflexivity ].

Ltac unseen_listener :=
  unfold_listeners; repeat (listener_shape; try unseen_leaf).

Ltac unseen_dispatch :=
  first [ solve [intros v w0; apply unseen_env; reflexivity]
        | solve [intros; discriminate]
        | solve [intros; unseen_listener]
        | solve [intros cb; destruct cb; intros; first [discriminate | unseen_listener]]
        | idtac ].

Lemma router_effects_dispatch base (ev : Event) (w : World) :
  negb (is_frame_event ev) = true ->
  unseen router_effect base w -> unseen router_effect base (dispatch ev w).
Proof.
  apply (dispatch_invariant_on (unseen router_effect base)
           (fun ev => negb (is_frame_event ev))); unseen_dispatch.
Qed.

(** X4.  Only a frame from the backend makes the script notify, write
    to the storage or colour the badge.  Through any events none of
    which is an inbound frame (socket errors, closes, failed
    submissions among them), no notification is created, nothing is
    stored and the colour of the badge is not set: the error events
    the script builds itself are broadcast to the popups, and no more. *)
Theorem only_frames_reach_the_user (evs : list Event) (w : World) :
  forallb (fun ev => negb (is_frame_event ev)) evs = true ->
  forallb (fun c => negb (router_effect (snd c))) (since w (run evs w)) = true.
Proof.
  intros Hevs. apply (unseen_since router_effect (out w)); [reflexivity|].
  apply (run_invariant_on _ _ (router_effects_dispatch (out w)) evs w Hevs).
  now apply unseen_here.
Qed.

Lemma only_frames_reach_the_user_witness :
  let p1 := {| port_id := 1; port_name := "popup" |} in
  let evs := [EvPortConnect p1; EvWsError 0; EvWsClose 0;
              EvPortMessage p1 (JObj [("type", JStr "execute_task");
                                      ("task", JStr "open example.org")]);
              EvSettle 0 (Rejected (Error "Failed to fetch")); EvTimer] in
  forallb (fun c => negb (router_effect (snd c)))
          (since startup (run evs startup)) = true /\
  List.length (posts_to p1 (since startup (run evs startup))) = 4.
Proof.
  intros p1 evs. split.
  - exact (only_frames_reach_the_user evs startup eq_refl).
  - reflexivity.
Defined.

Lemma fetch_dispatch base (ev : Event) (w : World) :
  negb (is_submission_event ev) = true ->
  unseen is_fetch base w -> unseen is_fetch base (dispatch ev w).
Proof.
  apply (dispatch_invariant_on (unseen is_fetch base)
           (fun ev => negb (is_submission_event ev))); unseen_dispatch.
Qed.

(** X5.  The script calls the backend's request interface only for a
    submission: through any events none of which is a message from a
    popup or the settlement of a promise of [executeTask], no [fetch]
    is made. *)
Theorem only_submissions_fetch (evs : list Event) (w : World) :
  forallb (fun ev => negb (is_submission_event ev)) evs = true ->
  forallb (fun c => negb (is_fetch (snd c))) (since w (run evs w)) = true.
Proof.
  intros Hevs. apply (unseen_since is_fetch (out w)); [reflexivity|].
  apply (run_invariant_on _ _ (fetch_dispatch (out w)) evs w Hevs).
  now apply unseen_here.
Qed.

Lemma only_submissions_fetch_witness :
  forallb (fun c => negb (is_fetch (snd c)))
          (since startup
             (run [EvWsOpen 0;
                   EvWsMessage 0 (inr (task_update "completed"));
                   EvWsClose 0; EvTimer; EvElapse 30000; EvTimer] startup))
  = true.
Proof.
  exact (only_submissions_fetch
           [EvWsOpen 0; EvWsMessage 0 (inr (task_update "completed"));
            EvWsClose 0; EvTimer; EvElapse 30000; EvTimer] startup eq_refl).
Defined.

Lemma socket_call_dispatch base (ev : Event) (w : World) :
  negb (is_timer_event ev) = true ->
  unseen socket_call base w -> unseen socket_call base (dispatch ev w).
Proof.
  apply (dispatch_invariant_on (unseen socket_call base)
           (fun ev => negb (is_timer_event ev))); unseen_dispatch.
Qed.

(** X6.  Once the script has started, it makes, closes or writes to a
    socket in the turn of a timer only (the reconnection and the
    keep-alive): through any events none of which is a timer firing, no
    socket is created or closed and nothing is sent to the backend. *)
Theorem only_timers_touch_sockets (evs : list Event) (w : World) :
  forallb (fun ev => negb (is_timer_event ev)) evs = true ->
  forallb (fun c => negb (socket_call (snd c))) (since w (run evs w)) = true.
Proof.
  intros Hevs. apply (unseen_since socket_call (out w)); [reflexivity|].
  apply (run_invariant_on _ _ (socket_call_dispatch (out w)) evs w Hevs).
  now apply unseen_here.
Qed.

Lemma only_timers_touch_sockets_witness :
  forallb (fun c => negb (socket_call (snd c)))
          (since startup
             (run [EvWsOpen 0; EvWsError 0; EvWsClose 0; EvElapse 500;
                   EvWsMessage 0 (inr (task_update "failed"))] startup))
  = true.
Proof.
  exact (only_timers_touch_sockets
           [EvWsOpen 0; EvWsError 0; EvWsClose 0; EvElapse 500;
            EvWsMessage 0 (inr (task_update "failed"))] startup eq_refl).
Defined.

(** ** Frames that cannot be handled *)

Lemma route_returns_or_throws (message : JSValue) (w : World) :
  fst (route message w) = Normal tt \/ exists e, fst (route message w) = Thrown e.
Proof.
  unfold route. destruct message; simpl; unfold bind; simpl; eauto.
  destruct (strict_eq_str (lookup "type" fields) "task_update").
  - unfold handleTaskUpdate, bind; simpl.
    destruct (strict_eq_str (lookup "status" fields) "running"); [now left|].
    destruct (strict_eq_str (lookup "status" fields) "completed"); [now left|].
    destruct (strict_eq_str (lookup "status" fields) "failed"); now left.
  - destruct (strict_eq_str (lookup "type" fields) "browser_state"); [now left|].
    destruct (strict_eq_str (lookup "type" fields) "error"); now left.
Qed.

(** X7.  [ws.onmessage] never throws, whatever the frame.  A frame that
    does not parse is logged and dropped: one line on the console,
    nothing posted, nothing else changed.  A frame that parses to
    [null] is broadcast to the popups first, and then the TypeError of
    reading its [type] is caught and logged. *)
Theorem onmessage_never_throws (parsed : JSError + JSValue) (e : JSError)
        (w : World) :
  fst (ws_onmessage parsed w) = Normal tt /\
  ws_onmessage (inl e) w
  = (Normal tt,
     set_out (out w ++ [(now w, ConsoleError "Error parsing WebSocket message:"
                                  (error_value e))]) w) /\
  exec (ws_onmessage (inr JNull)) w
  = exec (console_error "Error parsing WebSocket message:"
            (error_value
               (Error "Cannot read properties of null (reading 'type')")))
         (exec (broadcastToPopups JNull) w).
Proof.
  split; [|split].
  - unfold ws_onmessage, try_catch. destruct parsed as [e0|message].
    + reflexivity.
    + rewrite handleWebSocketMessage_route.
      destruct (route_returns_or_throws message
                  (exec (broadcastToPopups message) w)) as [H|[e0 H]];
        destruct (route message (exec (broadcastToPopups message) w))
          as [r w']; simpl in H; subst r; reflexivity.
  - reflexivity.
  - unfold exec at 1. unfold ws_onmessage, try_catch.
    rewrite handleWebSocketMessage_route. reflexivity.
Qed.

(** ** A popup connects *)

Lemma Set_has_add_same (p : Port) (s : JSSet) : Set_has p (Set_add p s) = true.
Proof.
  unfold Set_add. destruct (Set_has p s) eqn:E; [exact E|].
  unfold Set_has. rewrite existsb_app. simpl.
  now rewrite Port_eqb_refl, orb_true_r.
Qed.

Lemma Set_has_add_other (p q : Port) (s : JSSet) :
  q <> p -> Set_has q (Set_add p s) = Set_has q s.
Proof.
  intros Hne. unfold Set_add. destruct (Set_has p s); [reflexivity|].
  unfold Set_has. rewrite existsb_app. simpl.
  destruct (Port_eqb_spec p q); [congruence|]. now rewrite !orb_false_r.
Qed.

Lemma dispatch_connect_live (w : World) (p : Port) :
  port_name p = "popup" -> is_broken p w = false ->
  dispatch (EvPortConnect p) w
  = set_listeners (p :: listeners w)
      (set_out (out w ++
                [(now w, PostMessage p (connection_status (current_status w))
                           true)])
         (set_ports (Set_add p (ports w)) w)).
Proof.
  intros Hname Hlive. simpl. unfold exec, onConnect. rewrite Hname. simpl.
  unfold bind, modify, gets, postMessage, bind, gets; simpl.
  unfold is_broken in *; simpl. rewrite Hlive. reflexivity.
Qed.

(** X8.  A popup that connects is told at once how the connection
    stands.  For a port named popup whose channel is open: the one call
    of the turn is the [postMessage] of a connection_status event on
    that port, with status connected exactly when [ws] holds a socket
    that is open; the port is in the Set afterwards, with its
    listeners, and no other port enters or leaves the Set. *)
Theorem new_popup_is_told_the_status (w : World) (p : Port) :
  port_name p = "popup" -> is_broken p w = false ->
  let w' := dispatch (EvPortConnect p) w in
  since w w'
  = [(now w, PostMessage p (connection_status (current_status w)) true)] /\
  (current_status w = "connected" <->
   exists s, ws w = Some s /\ readyState s w = Some OPEN) /\
  Set_has p (ports w') = true /\ has_listeners p w' = true /\
  forall q, q <> p -> Set_has q (ports w') = Set_has q (ports w).
Proof.
  intros Hname Hlive w'.
  assert (Hw' : w' = set_listeners (p :: listeners w)
                       (set_out (out w ++
                                 [(now w, PostMessage p
                                            (connection_status (current_status w))
                                            true)])
                          (set_ports (Set_add p (ports w)) w))).
  { unfold w'. now apply dispatch_connect_live. }
  clearbody w'. subst w'. split; [|split; [|split; [|split]]].
  - unfold since; simpl. apply skipn_length_app.
  - unfold current_status. split.
    + destruct (ws w) as [s|]; [|discriminate].
      destruct (readyState s w) as [[| | |]|] eqn:Hr; try discriminate.
      intros _. exists s. split; [reflexivity|exact Hr].
    + intros [s [-> ->]]. reflexivity.
  - simpl. apply Set_has_add_same.
  - unfold has_listeners; simpl. now rewrite Port_eqb_refl.
  - intros q Hq. simpl. now apply Set_has_add_other.
Qed.

Lemma new_popup_is_told_the_status_witness :
  let p1 := {| port_id := 1; port_name := "popup" |} in
  let w := run [EvWsOpen 0] startup in
  since w (dispatch (EvPortConnect p1) w)
  = [(0%Z, PostMessage p1 (connection_status "connected") true)] /\
  Set_has p1 (ports (dispatch (EvPortConnect p1) w)) = true.
Proof.
  intros p1 w.
  destruct (new_popup_is_told_the_status w p1 eq_refl eq_refl)
    as [H1 [_ [H2 _]]].
  split; [exact H1|exact H2].
Defined.

(** X9.  A popup whose channel is already closed when it connects: the
    listener throws at the first [postMessage], after the port was put
    in the Set and before its listeners were added.  The port is then
    in the Set without listeners, so its disconnection does not take it
    out; the next broadcast does. *)
Theorem popup_with_closed_channel (w : World) (p : Port) (e : JSValue) :
  port_name p = "popup" -> is_broken p w = true ->
  has_listeners p w = false ->
  let w' := dispatch (EvPortConnect p) w in
  fst (onConnect p w) = Thrown disconnected_port /\
  Set_has p (ports w') = true /\ has_listeners p w' = false /\
  Set_has p (ports (dispatch (EvPortDisconnect p) w')) = true /\
  Set_has p (ports (exec (broadcastToPopups e) w')) = false.
Proof.
  intros Hname Hbroken Hlisten w'.
  assert (Hrun : onConnect p w
                 = (Thrown disconnected_port,
                    set_out (out w ++
                             [(now w, PostMessage p
                                        (connection_status (current_status w))
                                        false)])
                      (set_ports (Set_add p (ports w)) w))).
  { unfold onConnect. rewrite Hname. simpl.
    unfold bind, modify, gets, postMessage, bind, gets; simpl.
    unfold is_broken in *; simpl. rewrite Hbroken. reflexivity. }
  assert (Hw' : w' = set_out (out w ++
                              [(now w, PostMessage p
                                         (connection_status (current_status w))
                                         false)])
                       (set_ports (Set_add p (ports w)) w))
    by (unfold w'; simpl; unfold exec; now rewrite Hrun).
  clearbody w'. subst w'. rewrite Hrun.
  split; [reflexivity|]. split; [apply Set_has_add_same|].
  split; [exact Hlisten|]. split.
  - simpl. unfold has_listeners in *; simpl. rewrite Hlisten. simpl.
    apply Set_has_add_same.
  - rewrite ports_broadcast, Set_has_kept. simpl.
    rewrite Set_has_add_same. unfold is_broken in *; simpl. now rewrite Hbroken.
Qed.

Lemma popup_with_closed_channel_witness :
  let p1 := {| port_id := 1; port_name := "popup" |} in
  let w := run [EvPortBreak p1] startup in
  let w' := dispatch (EvPortConnect p1) w in
  Set_has p1 (ports w') = true /\
  Set_has p1 (ports (dispatch (EvPortDisconnect p1) w')) = true /\
  Set_has p1 (ports (exec (broadcastToPopups (JStr "e")) w')) = false.
Proof.
  intros p1 w w'.
  destruct (popup_with_closed_channel w p1 (JStr "e") eq_refl eq_refl eq_refl)
    as [_ [H1 [_ [H2 H3]]]].
  split; [exact H1|]. split; [exact H2|exact H3].
Defined.

Lemma Set_has_false_forallb (p : Port) (s : JSSet) :
  Set_has p s = false -> forallb (fun e => negb (is_entry p e)) s = true.
Proof.
  unfold Set_has. induction s as [|e s IH]; simpl; [reflexivity|].
  intros H. apply orb_false_elim in H as [He Hs]. now rewrite He, IH.
Qed.

(** X10.  Connecting and then disconnecting gives the registry back.
    For a port named popup, with an open channel, that is not in the
    Set: after its connection and its disconnection the ports in the
    Set are, in order, those that were there before. *)
Theorem connect_disconnect_round_trip (w : World) (p : Port) :
  port_name p = "popup" -> is_broken p w = false ->
  Set_has p (ports w) = false ->
  let w' := run [EvPortConnect p; EvPortDisconnect p] w in
  live (ports w') = live (ports w) /\ Set_has p (ports w') = false.
Proof.
  intros Hname Hlive Habsent w'.
  assert (Hports : ports w' = ports w ++ [None]).
  { unfold w'. cbn [run]. rewrite (dispatch_connect_live w p Hname Hlive).
    cbn [dispatch]. unfold has_listeners. cbn [listeners set_listeners existsb].
    rewrite Port_eqb_refl. simpl.
    unfold Set_add. rewrite Habsent.
    apply Set_delete_skip. now apply Set_has_false_forallb. }
  rewrite Hports. split.
  - rewrite live_app. simpl. apply app_nil_r.
  - unfold Set_has in *. rewrite existsb_app, Habsent. reflexivity.
Qed.

Lemma connect_disconnect_round_trip_witness :
  let p1 := {| port_id := 1; port_name := "popup" |} in
  let p2 := {| port_id := 2; port_name := "popup" |} in
  let w := run [EvPortConnect p1] startup in
  live (ports (run [EvPortConnect p2; EvPortDisconnect p2] w)) = [p1].
Proof.
  intros p1 p2 w.
  destruct (connect_disconnect_round_trip w p2 eq_refl eq_refl eq_refl)
    as [H _].
  exact H.
Defined.

(** ** The badge, in every run *)

Lemma badge_ok_env (w w' : World) :
  badgeText w' = badgeText w -> badgeColor w' = badgeColor w ->
  badge_ok w = true -> badge_ok w' = true.
Proof. unfold badge_ok. now intros -> ->. Qed.

Lemma badge_ok_emit (e : Effect) :
  preserves (fun w => badge_ok w = true) (emit e).
Proof. intros w. apply badge_ok_env; reflexivity. Qed.

(** The text and the colour are set in one go. *)
Lemma badge_ok_handleTaskUpdate (message : JSValue) :
  preserves (fun w => badge_ok w = true) (handleTaskUpdate message).
Proof.
  intros w Hw. unfold handleTaskUpdate.
  destruct message; simpl; unfold bind; simpl; try exact Hw.
  destruct (strict_eq_str (lookup "status" fields) "running"); [reflexivity|].
  destruct (strict_eq_str (lookup "status" fields) "completed"); [reflexivity|].
  destruct (strict_eq_str (lookup "status" fields) "failed"); [reflexivity|].
  exact Hw.
Qed.

Ltac badge_ok_modify :=
  let w := fresh "w" in
  intros w; first [ apply badge_ok_env; reflexivity
                  | intros _; reflexivity ].

Lemma badge_ok_broadcast (message : JSValue) :
  preserves (fun w => badge_ok w = true) (broadcastToPopups message).
Proof.
  intros w Hw. unfold broadcastToPopups.
  apply (preserves_forEach (fun w => badge_ok w = true)); [|exact Hw].
  clear w Hw. intros port w Hw _.
  unfold broadcast_callback, postMessage, console_error.
  apply (preserves_try_catch (fun w => badge_ok w = true));
    [|intros ?|exact Hw]; listener_shape;
    first [ apply badge_ok_emit | badge_ok_modify ].
Qed.

Ltac badge_ok_leaf :=
  first [ apply badge_ok_emit | apply badge_ok_broadcast | badge_ok_modify ].

(** One step down the shape of a listener. *)
Ltac listener_step :=
  first
    [ apply preserves_ret
    | apply preserves_throw
    | apply preserves_gets
    | apply preserves_get_member
    | apply preserves_bind; [|intros ?]
    | apply preserves_try_catch; [|intros ?]
    | match goal with
      | |- preserves _ (match ?x with _ => _ end) => destruct x
      | |- preserves _ (if ?b then _ else _) => destruct b
      end ].

Ltac badge_ok_listener :=
  unfold onConnect, port_onDisconnect, port_onMessage, executeTask,
    executeTask_resume, executeTask_catch, ws_onopen, ws_onclose, ws_onerror,
    ws_onmessage, handleWebSocketMessage,
    handleBrowserState, handleError, run_callback, connectWebSocket, ping,
    new_WebSocket, WebSocket_close, setTimeout, setInterval, setBadgeText,
    fetch, suspend, console_log, console_error, postMessage;
  repeat first [ apply badge_ok_handleTaskUpdate | listener_step
               | badge_ok_leaf ].

Lemma badge_ok_dispatch (ev : Event) (w : World) :
  badge_ok w = true -> badge_ok (dispatch ev w) = true.
Proof.
  apply (dispatch_invariant_on (fun w => badge_ok w = true) (fun _ => true));
    first [ reflexivity
          | solve [intros v w0; apply badge_ok_env; reflexivity]
          | solve [intros; badge_ok_listener]
          | solve [intros cb; destruct cb; intros; badge_ok_listener]
          | idtac ].
Qed.

(** X11.  In every world the script can reach, the badge is either
    empty or shows one of the three signs of [handleTaskUpdate] on the
    colour set with it: the text and the colour never disagree (the
    timer that clears the text leaves the colour as it is). *)
Theorem badge_text_and_colour_agree (evs : list Event) :
  badge_ok (run evs startup) = true.
Proof.
  apply (run_invariant (fun w => badge_ok w = true)).
  - apply badge_ok_dispatch.
  - reflexivity.
Qed.

(** ** The keep-alive *)

Lemma take_due_split (d : Z) (l : list Timer) (t : Timer) (rest : list Timer) :
  take_due d l = Some (t, rest) ->
  exists l1 l2, l = l1 ++ t :: l2 /\ rest = l1 ++ l2 /\ due t = d.
Proof.
  revert rest. induction l as [|u l IH]; simpl; intros rest H; [discriminate|].
  destruct (Z.eqb_spec (due u) d) as [Hd|Hd].
  - injection H as <- <-. now exists [], l.
  - destruct (take_due d l) as [[v rest']|]; [|discriminate].
    injection H as <- <-.
    destruct (IH rest' eq_refl) as [l1 [l2 [-> [-> Hv]]]].
    now exists (u :: l1), l2.
Qed.

Lemma keep_alive_env (w w' : World) :
  timers w' = timers w -> now w' = now w -> out w' = out w ->
  keep_alive w -> keep_alive w'.
Proof. unfold keep_alive. now intros -> -> ->. Qed.

Lemma keep_alive_emit (e : Effect) :
  is_send e = false -> preserves keep_alive (emit e).
Proof.
  intros He w [Hcount [Htimers Hout]]. repeat split; auto. simpl.
  apply Forall_app. split; [exact Hout|].
  constructor; [|constructor]. unfold sent_ping; simpl.
  destruct e; try exact I. discriminate He.
Qed.

(** [setTimeout] arms a timer of its own, never the keep-alive's. *)
Lemma keep_alive_setTimeout (cb : Callback) (delay : Z) :
  Callback_eqb cb CbPing = false -> preserves keep_alive (setTimeout cb delay).
Proof.
  intros Hcb. unfold setTimeout.
  apply preserves_bind; [now apply keep_alive_emit|intros _].
  intros w [Hcount [Htimers Hout]]. repeat split; simpl; auto.
  - rewrite filter_app, length_app. simpl. unfold is_ping_timer at 2; simpl.
    rewrite Hcb. simpl. lia.
  - apply Forall_app. split; [exact Htimers|].
    constructor; [|constructor]. intros H. unfold is_ping_timer in H; simpl in H.
    congruence.
Qed.

Ltac keep_alive_modify :=
  let w := fresh "w" in
  intros w; apply keep_alive_env; reflexivity.

Lemma keep_alive_broadcast (message : JSValue) :
  preserves keep_alive (broadcastToPopups message).
Proof.
  intros w Hw. unfold broadcastToPopups.
  apply preserves_forEach; [|exact Hw].
  clear w Hw. intros port w Hw _.
  unfold broadcast_callback, postMessage, console_error.
  apply preserves_try_catch; [|intros ?|exact Hw]; listener_shape;
    first [ apply keep_alive_emit; reflexivity | keep_alive_modify ].
Qed.

Ltac keep_alive_leaf :=
  first [ apply keep_alive_emit; reflexivity
        | apply keep_alive_broadcast
        | keep_alive_modify ].

Ltac keep_alive_timeout :=
  match goal with
  | |- preserves _ (setTimeout _ _) => apply keep_alive_setTimeout; reflexivity
  end.

Ltac keep_alive_listener :=
  unfold onConnect, port_onDisconnect, port_onMessage, executeTask,
    executeTask_resume, executeTask_catch, ws_onopen, ws_onclose, ws_onerror,
    ws_onmessage, handleWebSocketMessage, handleTaskUpdate,
    handleBrowserState, handleError, connectWebSocket,
    new_WebSocket, WebSocket_close, setBadgeText,
    setBadgeBackgroundColor, fetch, suspend, console_log, console_error,
    postMessage;
  repeat first [ keep_alive_timeout | listener_step | keep_alive_leaf ].

(** The keep-alive itself: a ping on the socket [ws] holds if it is
    open, nothing otherwise. *)
Lemma keep_alive_ping (w : World) :
  on_the_beat (now w) -> keep_alive w -> keep_alive (exec ping w).
Proof.
  intros Hbeat Hw. unfold exec, ping, bind, gets; simpl.
  destruct (ws w) as [s|]; [|exact Hw].
  destruct (readyState s w) as [[| | |]|]; try exact Hw.
  destruct Hw as [Hcount [Htimers Hout]]. simpl. repeat split; auto.
  apply Forall_app. split; [exact Hout|].
  constructor; [|constructor]. unfold sent_ping; simpl. now split.
Qed.

Lemma keep_alive_fire (w : World) : keep_alive w -> keep_alive (fire_timer w).
Proof.
  intros Hw. unfold fire_timer.
  destruct (min_due (timers w)) as [d|] eqn:Hmin; [|exact Hw].
  destruct (take_due d (timers w)) as [[t rest]|] eqn:Htake; [|exact Hw].
  destruct (take_due_split _ _ _ _ Htake) as [l1 [l2 [Hl [Hrest Hd]]]].
  destruct Hw as [Hcount [Htimers Hout]].
  assert (Hle : forall x, In x (timers w) -> (d <= due x)%Z)
    by (intros x Hx; now apply (min_due_le (timers w))).
  rewrite Hl in Hcount, Htimers, Hle.
  rewrite filter_app, length_app in Hcount. simpl in Hcount.
  apply Forall_app in Htimers as [H1 Ht]. inversion Ht as [|? ? Htok H2]; subst.
  assert (Hrest_ok : forall clock,
             (forall x, In x (l1 ++ l2) -> is_ping_timer x = true ->
                        (clock <= due x)%Z) ->
             Forall (ping_timer_ok clock) (l1 ++ l2)).
  { intros clock Hclock. apply Forall_forall. intros x Hx Hping.
    assert (Hold : ping_timer_ok (now w) x).
    { apply in_app_or in Hx. rewrite Forall_forall in H1, H2.
      destruct Hx; auto. }
    destruct (Hold Hping) as [Hp [_ Hb]]. repeat split; auto.
    all: apply Hb. }
  assert (Hin_rest : forall x, In x (l1 ++ l2) -> In x (l1 ++ t :: l2)).
  { intros x Hx. apply in_app_or in Hx. apply in_or_app.
    destruct Hx; [now left|right; now right]. }
  destruct (is_ping_timer t) eqn:Hping.
  - destruct (Htok Hping) as [Hperiod [Hnow [Hpos Hmod]]].
    assert (Hat : Z.max (now w) (due t) = due t) by lia.
    assert (Hcb : callback t = CbPing)
      by (unfold is_ping_timer in Hping; destruct (callback t);
          [discriminate|discriminate|reflexivity]).
    rewrite Hcb. unfold run_callback.
    apply keep_alive_ping; simpl; rewrite Hat; [now split|].
    unfold rearm. rewrite Hperiod.
    repeat split; simpl; auto.
    + rewrite filter_app, length_app. simpl.
      unfold is_ping_timer at 2; simpl. rewrite Hcb. simpl.
      rewrite filter_app, length_app. simpl in Hcount. lia.
    + apply Forall_app. split.
      * apply Hrest_ok. intros x Hx _. auto.
      * constructor; [|constructor]. intros _. simpl.
        repeat split; [lia|lia|].
        rewrite <- (Z_mod_plus_full (due t) 1 30000) in Hmod.
        now replace (due t + 1 * 30000)%Z with (due t + 30000)%Z in Hmod by lia.
  - assert (Hbase : keep_alive
                      (set_now (Z.max (now w) (due t))
                         (set_timers ((l1 ++ l2) ++ rearm (Z.max (now w) (due t)) t)
                            w))).
    { repeat split; simpl; auto.
      - rewrite filter_app, length_app, filter_app, length_app.
        assert (Hre : List.length
                        (filter is_ping_timer (rearm (Z.max (now w) (due t)) t)) = 0).
        { unfold rearm. destruct (period t); simpl; [|reflexivity].
          unfold is_ping_timer in *; simpl. now rewrite Hping. }
        rewrite Hre. lia.
      - apply Forall_app. split.
        + apply Hrest_ok. intros x Hx Hxp.
          assert (Hold : ping_timer_ok (now w) x).
          { apply in_app_or in Hx. rewrite Forall_forall in H1, H2.
            destruct Hx; auto. }
          destruct (Hold Hxp) as [_ [Hnow _]].
          specialize (Hle x (Hin_rest x Hx)). lia.
        + unfold rearm. destruct (period t); [|constructor].
          constructor; [|constructor]. intros H.
          unfold is_ping_timer in *; simpl in H. congruence. }
    revert Hbase. apply preserves_exec.
    unfold is_ping_timer in Hping.
    destruct (callback t); [| |discriminate Hping];
      unfold run_callback; keep_alive_listener.
Qed.

Lemma keep_alive_elapse (d : Z) (w : World) :
  keep_alive w -> keep_alive (elapse d w).
Proof.
  intros [Hcount [Htimers Hout]]. unfold elapse.
  destruct (min_due (timers w)) as [m|] eqn:Hmin.
  - repeat split; simpl; auto.
    apply Forall_forall. intros x Hx Hping.
    rewrite Forall_forall in Htimers.
    destruct (Htimers x Hx Hping) as [Hp [Hnow Hb]].
    pose proof (min_due_le _ _ _ Hmin Hx). repeat split; auto; try lia.
    all: apply Hb.
  - apply min_due_none in Hmin. rewrite Hmin in Hcount. discriminate Hcount.
Qed.

Lemma keep_alive_dispatch (ev : Event) (w : World) :
  keep_alive w -> keep_alive (dispatch ev w).
Proof.
  apply (dispatch_invariant keep_alive (fun _ => true));
    first [ reflexivity
          | solve [intros v w0; apply keep_alive_env; reflexivity]
          | solve [intros; keep_alive_listener]
          | idtac ].
  - apply keep_alive_fire.
  - apply keep_alive_elapse.
Qed.

(** X12.  The keep-alive is armed once and for all.  In every world the
    script can reach, exactly one timer of the keep-alive is armed, and
    everything the script has ever written to a socket is the ping
    frame, written when that timer fired: at a clock value of 30000,
    60000, 90000, ... milliseconds. *)
Theorem keep_alive_is_armed_once (evs : list Event) :
  let w := run evs startup in
  List.length (filter is_ping_timer (timers w)) = 1 /\
  Forall sent_ping (out w).
Proof.
  intros w.
  assert (H : keep_alive w).
  { apply run_invariant; [apply keep_alive_dispatch|].
    split; [reflexivity|]. split.
    - constructor; [|constructor]. intros _.
      split; [reflexivity|]. split; [discriminate|]. split; reflexivity.
    - repeat (constructor; [exact I|]). constructor. }
  destruct H as [H1 [_ H2]]. now split.
Qed.

(** ** The answers of the backend to a submission *)

(** X13.  The body of the create response is not checked.  A body that
    is an object without [task_id] is taken as it is: the execute
    request goes to [/api/execute/undefined], and when that request
    succeeds the task_created event is broadcast with an undefined
    [taskId].  A body that is [null] ends the submission in the [catch]:
    no execute request, the function returns normally. *)
Theorem create_body_is_not_checked
        (fields : list (string * JSValue)) (w : World) :
  lookup "task_id" fields = JUndefined ->
  let taskData := JObj fields in
  (fst (executeTask_resume AwaitJson (Json taskData) w)
   = Normal (Some (AwaitExecute taskData)) /\
   since w (exec (executeTask_resume AwaitJson (Json taskData)) w)
   = [(now w, Fetch "http://localhost:5000/api/execute/undefined" "POST" None)] /\
   executeTask_resume (AwaitExecute taskData) (Response true) w
   = (Normal None, exec (broadcastToPopups (task_created JUndefined)) w)) /\
  (exists msg,
      executeTask_resume AwaitJson (Json JNull) w
      = (Normal None, exec (executeTask_catch (Error msg)) w) /\
      fetches (since w (exec (executeTask_catch (Error msg)) w)) = []).
Proof.
  intros Hid taskData. split; [split; [|split]|].
  - apply resume_body.
  - destruct (resume_body fields w) as [_ H]. unfold taskData. rewrite H.
    unfold execute_url. now rewrite Hid.
  - unfold executeTask_resume, try_catch, bind, exec; simpl.
    rewrite Hid. fold (task_created JUndefined).
    now rewrite broadcastToPopups_eq.
  - exists "Cannot read properties of null (reading 'task_id')". split.
    + unfold executeTask_resume, try_catch, exec; simpl. unfold bind.
      now rewrite executeTask_catch_eq.
    + rewrite since_catch. apply fetches_sent.
Qed.

Lemma create_body_is_not_checked_witness :
  since startup
        (exec (executeTask_resume AwaitJson (Json (JObj [("id", JStr "t1")])))
              startup)
  = [(0%Z, Fetch "http://localhost:5000/api/execute/undefined" "POST" None)].
Proof.
  destruct (create_body_is_not_checked [("id", JStr "t1")] startup eq_refl)
    as [[_ [H _]] _].
  exact H.
Defined.

Lemma since_same (w : World) : since w w = [].
Proof. unfold since. apply skipn_all. Qed.

(** X14.  No step of [executeTask] throws, whatever the promise it
    awaits settles with and whatever the body is: the step either ends
    the function or suspends it again, and a step that suspends it has
    posted nothing to any popup. *)
Theorem submission_steps_never_throw
        (a : Awaiting) (s : Settled) (w : World) (p : Port) :
  match fst (executeTask_resume a s w) with
  | Normal (Some _) =>
      posts_to p (since w (exec (executeTask_resume a s) w)) = []
  | Normal None => True
  | _ => False
  end.
Proof.
  assert (Hcatch : forall e w0,
             fst ((executeTask_catch e ;; ret (@None Awaiting)) w0) = Normal None).
  { intros e w0. unfold bind. now rewrite executeTask_catch_eq. }
  assert (Hfetch : forall url w0,
             posts_to p (since w0 (exec (fetch url "POST" None) w0)) = []).
  { intros url w0. unfold since, exec, fetch, emit, modify; simpl.
    now rewrite skipn_length_app. }
  unfold exec, executeTask_resume, try_catch.
  destruct a as [| |taskData], s as [e|[|]|v]; simpl;
    try (rewrite Hcatch; exact I);
    try (now rewrite since_same).
  - destruct v; simpl; unfold bind; simpl;
      try (rewrite executeTask_catch_eq; exact I);
      unfold since; simpl; now rewrite skipn_length_app.
  - destruct taskData; simpl; unfold bind; simpl;
      try (rewrite executeTask_catch_eq; exact I);
      rewrite broadcastToPopups_eq; exact I.
Qed.

(** * The popup *)

(** ** Blank input *)

Lemma strip_any_blank (c rest : string) :
  In c Popup.blanks ->
  Popup.strip_any Popup.blanks (c ++ rest) = Some rest.
Proof.
  intros H. unfold Popup.blanks, Popup.WhiteSpace, Popup.LineTerminator in H.
  simpl in H.
  repeat (destruct H as [<-|H]; [reflexivity|]). destruct H.
Qed.

Lemma blank_nonempty (c : string) : In c Popup.blanks -> 1 <= String.length c.
Proof.
  intros H. unfold Popup.blanks, Popup.WhiteSpace, Popup.LineTerminator in H.
  simpl in H.
  repeat (destruct H as [<-|H]; [simpl; lia|]). destruct H.
Qed.

Lemma string_length_append (a b : string) :
  String.length (a ++ b) = String.length a + String.length b.
Proof. induction a as [|c a IH]; simpl; auto. Qed.

Lemma strip_all_blank (parts : list string) :
  Forall (fun c => In c Popup.blanks) parts ->
  forall fuel, String.length (fold_right String.append "" parts) <= fuel ->
               Popup.strip_all fuel Popup.blanks
                               (fold_right String.append "" parts) = "".
Proof.
  induction 1 as [|c parts Hc Hparts IH]; intros fuel Hfuel.
  - destruct fuel; reflexivity.
  - cbn [fold_right] in *. rewrite string_length_append in Hfuel.
    pose proof (blank_nonempty c Hc).
    destruct fuel as [|fuel]; [lia|]. cbn [Popup.strip_all].
    rewrite strip_any_blank by exact Hc. apply IH. lia.
Qed.

Lemma trim_blank (s : string) : Popup.blank s -> Popup.trim s = "".
Proof.
  intros [parts [Hparts ->]]. unfold Popup.trim, Popup.trimStart.
  now rewrite strip_all_blank.
Qed.

(** X15.  Blank input is ignored.  When the input holds nothing but
    white space and line terminators (or nothing at all), a click on
    the button or Enter in the input changes nothing: no message, no
    request, the input is not even cleared. *)
Theorem blank_input_is_ignored
        (pg : Popup.Page) (now_iso : string) (shiftKey : bool) :
  Popup.blank (Popup.input pg) ->
  Popup.dispatch (Popup.Click now_iso) pg = pg /\
  Popup.dispatch (Popup.KeyDown "Enter" shiftKey now_iso) pg = pg.
Proof.
  intros Hblank. apply trim_blank in Hblank. simpl.
  unfold Popup.handleSubmit. rewrite Hblank. simpl.
  split; [reflexivity|]. now destruct shiftKey.
Qed.

Lemma blank_input_is_ignored_witness :
  let pg := Popup.dispatch
              (Popup.Edit ("  " ++ Popup.of_bytes [9; 10; 194; 160] ++ " ")%string)
              (Popup.initial "Idle" ["status-indicator"] None) in
  Popup.dispatch (Popup.Click "2025-01-01T00:00:00.000Z") pg = pg.
Proof.
  intros pg.
  refine (proj1 (blank_input_is_ignored pg "2025-01-01T00:00:00.000Z" false _)).
  exists [" "; " "; Popup.of_bytes [9]; Popup.of_bytes [10];
          Popup.of_bytes [194; 160]; " "].
  split; [|reflexivity].
  repeat (constructor; [vm_compute; tauto|]). constructor.
Defined.

(** ** A submission *)

Lemma render_is_element_of (m : Popup.Message) (pg : Popup.Page) :
  Popup.renderMessage m pg
  = Popup.set_chat (Popup.chat pg ++ [Popup.element_of m]) pg.
Proof.
  unfold Popup.renderMessage, Popup.element_of.
  destruct m as [[|] c t]; reflexivity.
Qed.

(** X16.  The request of a submission.  For an input that is not blank,
    [handleSubmit] makes one request, a POST to /api/tasks whose
    [task_text] is the trimmed input and whose [previous_tasks] are the
    contents of the user's messages so far followed by that same text:
    the task being submitted is listed among the previous ones. *)
Theorem request_lists_the_submitted_task
        (pg : Popup.Page) (now_iso : string) :
  Popup.trim (Popup.input pg) <> "" ->
  let text := Popup.trim (Popup.input pg) in
  Popup.out (Popup.handleSubmit now_iso pg)
  = Popup.out pg ++
    [Popup.Fetch "http://localhost:5000/api/tasks" "POST"
       (JObj [("task_text", JStr text);
              ("context",
               JObj [("previous_tasks",
                      JArr (map Popup.content
                                (filter Popup.is_user (Popup.messages pg))
                            ++ [JStr text]));
                     ("browser_state", JObj [])])])].
Proof.
  intros Htext text. unfold Popup.handleSubmit. fold text.
  destruct (String.eqb_spec text ""); [contradiction|].
  unfold Popup.task_body. simpl.
  now rewrite filter_app, map_app.
Qed.

Lemma request_lists_the_submitted_task_witness :
  let pg := Popup.run [Popup.Edit "open example.org"; Popup.Click "t1";
                       Popup.Edit " then log in "]
                      (Popup.initial "Idle" ["status-indicator"] None) in
  Popup.out (Popup.handleSubmit "t2" pg)
  = Popup.out pg ++
    [Popup.Fetch "http://localhost:5000/api/tasks" "POST"
       (JObj [("task_text", JStr "then log in");
              ("context",
               JObj [("previous_tasks",
                      JArr [JStr "open example.org"; JStr "then log in"]);
                     ("browser_state", JObj [])])])].
Proof.
  intros pg.
  assert (H : Popup.trim (Popup.input pg) <> "") by discriminate.
  exact (request_lists_the_submitted_task pg "t2" H).
Defined.

(** The message [addMessage] makes. *)
Lemma addMessage_eq (sender : Popup.Sender) (c : JSValue) (now_iso : string)
      (pg : Popup.Page) :
  let m := {| Popup.type := sender; Popup.content := c;
              Popup.timestamp := now_iso |} in
  Popup.addMessage sender c now_iso pg
  = Popup.set_stored (Some (Popup.messages pg ++ [m]))
      (Popup.set_chat (Popup.chat pg ++ [Popup.element_of m])
         (Popup.set_messages (Popup.messages pg ++ [m]) pg)).
Proof.
  intros m. unfold Popup.addMessage. fold m. now rewrite render_is_element_of.
Qed.

(** X17.  How a submission ends.  Whatever the page is when the answer
    comes: a body that is an object ends the submission with one agent
    message carrying its [result], status idle; a rejected request, a
    response that is not ok or a [null] body end it with one agent
    message carrying the apology, status error, and one line on the
    console.  Either way the message is added to the state, shown last
    in the chat and saved with all the others, and the label and the
    classes of the indicator are those of the new status alone. *)
Theorem submission_ends_with_one_agent_message
        (pg : Popup.Page) (fields : list (string * JSValue)) (e : JSError)
        (now_iso : string) :
  let ended sender_content st (r : Popup.Page * option Popup.Awaiting) :=
    let m := {| Popup.type := Popup.agent; Popup.content := sender_content;
                Popup.timestamp := now_iso |} in
    snd r = None /\
    Popup.messages (fst r) = Popup.messages pg ++ [m] /\
    Popup.chat (fst r) = Popup.chat pg ++ [Popup.element_of m] /\
    Popup.stored (fst r) = Some (Popup.messages pg ++ [m]) /\
    Popup.status (fst r) = st /\
    Popup.statusText (fst r) = Popup.label_of st /\
    Popup.indicator (fst r) = Popup.classes_of st in
  let sorry := JStr "Sorry, there was an error processing your request." in
  ended (lookup "result" fields) Popup.idle
        (Popup.handleSubmit_resume Popup.AwaitBody (Json (JObj fields)) now_iso pg) /\
  ended sorry Popup.error
        (Popup.handleSubmit_resume Popup.AwaitFetch (Rejected e) now_iso pg) /\
  ended sorry Popup.error
        (Popup.handleSubmit_resume Popup.AwaitFetch (Response false) now_iso pg) /\
  ended sorry Popup.error
        (Popup.handleSubmit_resume Popup.AwaitBody (Rejected e) now_iso pg) /\
  ended sorry Popup.error
        (Popup.handleSubmit_resume Popup.AwaitBody (Json JNull) now_iso pg) /\
  Popup.handleSubmit_resume Popup.AwaitFetch (Response true) now_iso pg
  = (pg, Some Popup.AwaitBody).
Proof.
  cbv zeta. unfold Popup.handleSubmit_resume, Popup.handleSubmit_done,
    Popup.handleSubmit_catch. rewrite !addMessage_eq. simpl.
  repeat split.
Qed.

(** ** The chat, the state and the storage *)

Lemma mirrored_env (pg pg' : Popup.Page) :
  Popup.chat pg' = Popup.chat pg -> Popup.messages pg' = Popup.messages pg ->
  Popup.stored pg' = Popup.stored pg ->
  Popup.mirrored pg -> Popup.mirrored pg'.
Proof. unfold Popup.mirrored. now intros -> -> ->. Qed.

Lemma mirrored_addMessage (sender : Popup.Sender) (c : JSValue)
      (now_iso : string) (pg : Popup.Page) :
  Popup.mirrored pg -> Popup.mirrored (Popup.addMessage sender c now_iso pg).
Proof.
  intros [Hchat _]. rewrite addMessage_eq. split; simpl.
  - rewrite map_app, Hchat. reflexivity.
  - now left.
Qed.

Lemma mirrored_handleSubmit (now_iso : string) (pg : Popup.Page) :
  Popup.mirrored pg -> Popup.mirrored (Popup.handleSubmit now_iso pg).
Proof.
  intros H. unfold Popup.handleSubmit.
  destruct (String.eqb (Popup.trim (Popup.input pg)) ""); [exact H|].
  apply (mirrored_addMessage Popup.user (JStr (Popup.trim (Popup.input pg)))
           now_iso) in H.
  revert H. apply mirrored_env; reflexivity.
Qed.

Lemma mirrored_resume (a : Popup.Awaiting) (s : Settled) (now_iso : string)
      (pg : Popup.Page) :
  Popup.mirrored pg ->
  Popup.mirrored (fst (Popup.handleSubmit_resume a s now_iso pg)).
Proof.
  intros H.
  assert (Hcatch : forall e, Popup.mirrored (Popup.handleSubmit_catch e now_iso pg)).
  { intros e. unfold Popup.handleSubmit_catch.
    assert (H1 : Popup.mirrored
                   (Popup.emit (Popup.ConsoleError "Error:" (error_value e)) pg))
      by (revert H; apply mirrored_env; reflexivity).
    apply (mirrored_addMessage Popup.agent
             (JStr "Sorry, there was an error processing your request.")
             now_iso) in H1.
    revert H1. apply mirrored_env; reflexivity. }
  assert (Hdone : forall r, Popup.mirrored (Popup.handleSubmit_done r now_iso pg)).
  { intros r. unfold Popup.handleSubmit_done.
    apply (mirrored_addMessage Popup.agent r now_iso) in H.
    revert H. apply mirrored_env; reflexivity. }
  unfold Popup.handleSubmit_resume.
  destruct a, s as [e|[|]|v]; simpl; auto; destruct v; simpl; auto.
Qed.

Lemma mirrored_dispatch (ev : Popup.Event) (pg : Popup.Page) :
  negb (Popup.is_loaded ev) = true ->
  Popup.mirrored pg -> Popup.mirrored (Popup.dispatch ev pg).
Proof.
  intros Hev H. destruct ev; simpl; try discriminate.
  - now apply mirrored_handleSubmit.
  - destruct (String.eqb key "Enter" && negb shiftKey); [|exact H].
    now apply mirrored_handleSubmit.
  - revert H. apply mirrored_env; reflexivity.
  - unfold Popup.settle.
    destruct (find (fun e => Nat.eqb (fst e) id) (Popup.pending pg))
      as [[i a]|]; [|exact H].
    pose proof (mirrored_resume a s now_iso pg H) as H1.
    destruct (Popup.handleSubmit_resume a s now_iso pg) as [pg' [a'|]];
      revert H1; apply mirrored_env; reflexivity.
Qed.

Lemma chat_after_rendering (l : list Popup.Message) (pg : Popup.Page) :
  fold_left (fun pg m => Popup.renderMessage m pg) l pg
  = Popup.set_chat (Popup.chat pg ++ map Popup.element_of l) pg.
Proof.
  revert pg. induction l as [|m l IH]; intros pg; simpl.
  - rewrite app_nil_r. now destruct pg.
  - rewrite IH, render_is_element_of. simpl.
    rewrite <- app_assoc. reflexivity.
Qed.

Lemma mirrored_loaded (text : string) (classes : list string)
      (saved : option (list Popup.Message)) :
  Popup.mirrored (Popup.dispatch (Popup.Loaded saved)
                                 (Popup.initial text classes saved)).
Proof.
  destruct saved as [l|]; simpl.
  - rewrite chat_after_rendering. split; simpl; auto.
  - split; simpl; auto.
Qed.

Lemma mirrored_run (evs : list Popup.Event) :
  forallb (fun ev => negb (Popup.is_loaded ev)) evs = true ->
  forall pg, Popup.mirrored pg -> Popup.mirrored (Popup.run evs pg).
Proof.
  induction evs as [|ev evs IH]; simpl; intros Hevs pg H; [exact H|].
  apply andb_prop in Hevs as [Hev Hevs].
  apply IH; [exact Hevs|]. now apply mirrored_dispatch.
Qed.

(** X18.  The chat shows the state.  When the stored messages are
    loaded before anything else happens, then through any clicks, keys,
    edits and answers of the backend: the chat holds one element for
    each message of [state.messages], in order, with the message's
    classes and content, and the storage holds exactly those messages
    (or nothing, while there are none). *)
Theorem chat_mirrors_the_state
        (text : string) (classes : list string)
        (saved : option (list Popup.Message)) (evs : list Popup.Event) :
  forallb (fun ev => negb (Popup.is_loaded ev)) evs = true ->
  let pg := Popup.run (Popup.Loaded saved :: evs)
                      (Popup.initial text classes saved) in
  Popup.chat pg = map Popup.element_of (Popup.messages pg) /\
  (Popup.stored pg = Some (Popup.messages pg) \/
   (Popup.stored pg = None /\ Popup.messages pg = [])).
Proof.
  intros Hevs pg. unfold pg. cbn [Popup.run].
  apply (mirrored_run evs Hevs). apply mirrored_loaded.
Qed.

Lemma chat_mirrors_the_state_witness :
  let pg := Popup.run [Popup.Loaded None; Popup.Edit "open example.org";
                       Popup.Click "t1"; Popup.Settle 0 (Response true) "t2";
                       Popup.Settle 0 (Json (JObj [("result", JStr "done")])) "t3"]
                      (Popup.initial "Idle" ["status-indicator"] None) in
  Popup.chat pg = map Popup.element_of (Popup.messages pg) /\
  (Popup.stored pg = Some (Popup.messages pg) \/
   (Popup.stored pg = None /\ Popup.messages pg = [])).
Proof.
  generalize (chat_mirrors_the_state
                "Idle" ["status-indicator"] None
                [Popup.Edit "open example.org"; Popup.Click "t1";
                 Popup.Settle 0 (Response true) "t2";
                 Popup.Settle 0 (Json (JObj [("result", JStr "done")])) "t3"]
                eq_refl).
  vm_compute. exact (fun H => H).
Defined.

(** X19.  Closing the popup and opening it again brings the chat back.
    Take the page a session ends with (the history loaded first, then
    any events), and start the script anew on the storage that session
    left: once the stored messages are loaded, the state holds the
    same messages and the chat shows the same elements as at the end
    of the first session. *)
Theorem reopening_restores_the_chat
        (text : string) (classes : list string)
        (saved : option (list Popup.Message)) (evs : list Popup.Event) :
  forallb (fun ev => negb (Popup.is_loaded ev)) evs = true ->
  let before := Popup.run (Popup.Loaded saved :: evs)
                          (Popup.initial text classes saved) in
  let after := Popup.dispatch (Popup.Loaded (Popup.stored before))
                              (Popup.initial text classes (Popup.stored before)) in
  Popup.messages after = Popup.messages before /\
  Popup.chat after = Popup.chat before.
Proof.
  intros Hevs before after.
  assert (H : Popup.mirrored before).
  { unfold before. cbn [Popup.run].
    apply (mirrored_run evs Hevs). apply mirrored_loaded. }
  destruct H as [Hchat [Hstored|[Hstored Hnone]]]; unfold after;
    rewrite Hstored; simpl.
  - rewrite chat_after_rendering. simpl. now rewrite Hchat.
  - rewrite Hchat, Hnone. now split.
Qed.

Lemma reopening_restores_the_chat_witness :
  let evs := [Popup.Edit "open example.org"; Popup.Click "t1";
              Popup.Settle 0 (Rejected (Error "Failed to fetch")) "t2"] in
  let before := Popup.run (Popup.Loaded None :: evs)
                          (Popup.initial "Idle" ["status-indicator"] None) in
  let after := Popup.dispatch (Popup.Loaded (Popup.stored before))
                              (Popup.initial "Idle" ["status-indicator"]
                                             (Popup.stored before)) in
  List.length (Popup.chat before) = 2 /\
  Popup.chat after = Popup.chat before.
Proof.
  intros evs before after. split; [reflexivity|].
  exact (proj2 (reopening_restores_the_chat
                  "Idle" ["status-indicator"] None evs eq_refl)).
Defined.

(** ** The status on the page *)

Lemma status_shown_env text classes (pg pg' : Popup.Page) :
  Popup.statusText pg' = Popup.statusText pg ->
  Popup.indicator pg' = Popup.indicator pg ->
  Popup.status pg' = Popup.status pg ->
  PopupSpec.status_shown text classes pg ->
  PopupSpec.status_shown text classes pg'.
Proof. unfold PopupSpec.status_shown. now intros -> -> ->. Qed.

Lemma status_shown_updateStatus text classes (s : Popup.Status) (pg : Popup.Page) :
  PopupSpec.status_shown text classes (Popup.updateStatus s pg).
Proof. right. destruct s; split; reflexivity. Qed.

Lemma status_shown_dispatch text classes (ev : Popup.Event) (pg : Popup.Page) :
  PopupSpec.status_shown text classes pg ->
  PopupSpec.status_shown text classes (Popup.dispatch ev pg).
Proof.
  intros H.
  assert (Hsubmit : forall t, PopupSpec.status_shown text classes
                                (Popup.handleSubmit t pg)).
  { intros t. unfold Popup.handleSubmit.
    destruct (String.eqb (Popup.trim (Popup.input pg)) ""); [exact H|].
    eapply status_shown_env; [| | |apply status_shown_updateStatus];
      reflexivity. }
  destruct ev; simpl; auto.
  - destruct (String.eqb key "Enter" && negb shiftKey); auto.
  - destruct result as [l|]; [|exact H]. simpl.
    rewrite chat_after_rendering. revert H. apply status_shown_env; reflexivity.
  - unfold Popup.settle.
    destruct (find (fun e => Nat.eqb (fst e) id) (Popup.pending pg))
      as [[i a]|]; [|exact H].
    assert (H1 : PopupSpec.status_shown text classes
                   (fst (Popup.handleSubmit_resume a s now_iso pg))).
    { unfold Popup.handleSubmit_resume, Popup.handleSubmit_catch,
        Popup.handleSubmit_done.
      destruct a, s as [e|[|]|v]; simpl;
        try exact H; try apply status_shown_updateStatus;
        destruct v; simpl; apply status_shown_updateStatus. }
    destruct (Popup.handleSubmit_resume a s now_iso pg) as [pg' [a'|]];
      revert H1; apply status_shown_env; reflexivity.
Qed.

(** X20.  The page shows the status of the state.  In every page the
    popup can reach, the label and the indicator are either still as
    the markup has them (while the status has never been set), or the
    label is the capitalised status and the indicator carries the class
    of that status and of no other: classes of earlier statuses never
    pile up. *)
Theorem status_is_shown
        (text : string) (classes : list string)
        (saved : option (list Popup.Message)) (evs : list Popup.Event) :
  let pg := Popup.run evs (Popup.initial text classes saved) in
  (Popup.statusText pg = text /\ Popup.indicator pg = classes /\
   Popup.status pg = Popup.idle) \/
  (Popup.statusText pg = Popup.label_of (Popup.status pg) /\
   Popup.indicator pg = Popup.classes_of (Popup.status pg)).
Proof.
  intros pg.
  assert (H : forall p0, PopupSpec.status_shown text classes p0 ->
                         PopupSpec.status_shown text classes (Popup.run evs p0)).
  { induction evs as [|ev evs IH]; intros p0 H0; simpl; [exact H0|].
    apply IH. now apply status_shown_dispatch. }
  apply H. left. repeat split.
Qed.

(** ** A submission before the history is loaded *)

(** X21.  The history that comes late replaces the state.  If the user
    submits a task before the stored messages are loaded, then once
    they are loaded [state.messages] holds the stored messages and not
    the one just submitted, although the chat shows it, first; the next
    message saved goes to the storage without it. *)
Theorem late_history_drops_the_submitted_message
        (text : string) (classes : list string) (l : list Popup.Message)
        (value t1 t2 : string) (c : JSValue) :
  Popup.trim value <> "" ->
  let m := {| Popup.type := Popup.user;
              Popup.content := JStr (Popup.trim value);
              Popup.timestamp := t1 |} in
  let reply := {| Popup.type := Popup.agent; Popup.content := c;
                  Popup.timestamp := t2 |} in
  let pg := Popup.run [Popup.Edit value; Popup.Click t1; Popup.Loaded (Some l)]
                      (Popup.initial text classes (Some l)) in
  Popup.messages pg = l /\
  Popup.chat pg = Popup.element_of m :: map Popup.element_of l /\
  Popup.stored (Popup.addMessage Popup.agent c t2 pg) = Some (l ++ [reply]).
Proof.
  intros Hvalue m reply pg.
  assert (Hpg : Popup.messages pg = l /\
                Popup.chat pg = Popup.element_of m :: map Popup.element_of l).
  { unfold pg. cbn [Popup.run Popup.dispatch].
    unfold Popup.handleSubmit. cbn [Popup.input Popup.set_input Popup.initial].
    destruct (String.eqb_spec (Popup.trim value) ""); [contradiction|].
    rewrite addMessage_eq. unfold Popup.onLoaded.
    rewrite chat_after_rendering. simpl. now split. }
  destruct Hpg as [Hm Hc]. split; [exact Hm|]. split; [exact Hc|].
  rewrite addMessage_eq. simpl. now rewrite Hm.
Qed.

Lemma late_history_drops_the_submitted_message_witness :
  let old := {| Popup.type := Popup.user; Popup.content := JStr "earlier";
                Popup.timestamp := "t0" |} in
  let pg := Popup.run [Popup.Edit "open example.org"; Popup.Click "t1";
                       Popup.Loaded (Some [old])]
                      (Popup.initial "Idle" ["status-indicator"] (Some [old])) in
  Popup.messages pg = [old] /\ List.length (Popup.chat pg) = 2.
Proof.
  intros old pg.
  assert (H : Popup.trim "open example.org" <> "") by discriminate.
  destruct (late_history_drops_the_submitted_message
              "Idle" ["status-indicator"] [old] "open example.org" "t1" "t2"
              JUndefined H) as [H1 _].
  split; [exact H1|reflexivity].
Defined.
